(** * A shallow embedding of the Lox scanner (scanner.go)

    The scanner is a Go struct mutated in place by its methods.  It is
    embedded as a state-and-error monad over a record [Scanner]; a method
    [func (s *Scanner) m() T] becomes a computation [m : M T].

    - [rune] (Go [int32]) and [int] (64 bits) are integers of [Z]; the
      increments [s.current++] and [s.line++] wrap around as in Go
      ([int_add]).
    - An index or slice expression out of range panics in Go: the
      computation returns [Panic].
    - A [for] loop is run with a bound on its iterations taken from the
      length of the source ([while]); a loop that needs more returns
      [OutOfFuel].  The theorems show that neither [Panic] nor
      [OutOfFuel] is ever returned.
    - A Go [string] built by [string(s.source[a:b])] is kept as the
      sequence of its runes.
    - The diagnostic sink [*Lox] is owned by the scanner state; what
      [report] prints on standard error is kept as a log of records. *)

From Stdlib Require Import String Ascii.
From Stdlib Require Import ZArith List Bool Lia Sorted.
From Stdlib Require Import SpecFloat.
Import ListNotations.

Local Open Scope Z_scope.

(** * Data *)

(** ** Machine integers and runes *)

Abbreviation rune := Z (only parsing).

Definition int_min : Z := - 2 ^ 63.
Definition int_max : Z := 2 ^ 63 - 1.

(** Two's complement wrap-around of Go's 64-bit [int]. *)
Definition int_wrap (z : Z) : Z := (z + 2 ^ 63) mod 2 ^ 64 - 2 ^ 63.
Definition int_add (a b : Z) : Z := int_wrap (a + b).
Definition int_sub (a b : Z) : Z := int_wrap (a - b).

(** A rune literal ['c'] of the source. *)
Definition rn (c : ascii) : rune := Z.of_N (N_of_ascii c).

Definition r_newline : rune := 10.   (* '\n' *)
Definition r_return  : rune := 13.   (* '\r' *)
Definition r_tab     : rune := 9.    (* '\t' *)
Definition r_quote   : rune := 34.   (* the double quote *)
Definition r_backslash : rune := 92.

(** The runes of an ASCII text; on such a text this is Go's
    [[]rune(source)]. *)
Fixpoint runes (s : string) : list rune :=
  match s with
  | EmptyString => []
  | String c s' => rn c :: runes s'
  end.

(** ** Token types, tokens and errors *)

(** Modelled from the spec: the enumeration [TokenType], whose declaration
    is not among the sources.  Its values are the ones [scanner.go] names,
    in the four families of section 3 of the specification and the
    terminator EOF.  ([IF] is a reserved word here, hence [IF'].) *)
Inductive TokenType : Set :=
  | LEFT_PAREN | RIGHT_PAREN | LEFT_BRACE | RIGHT_BRACE
  | COMMA | DOT | MINUS | PLUS | SEMICOLON | SLASH | STAR
  | BANG | BANG_EQUAL | EQUAL | EQUAL_EQUAL
  | GREATER | GREATER_EQUAL | LESS | LESS_EQUAL
  | IDENTIFIER | STRING | NUMBER
  | AND | CLASS | ELSE | FALSE | FUN | FOR | IF' | NIL | OR
  | PRINT | RETURN | SUPER | THIS | TRUE | VAR | WHILE
  | EOF.

Definition float64 := spec_float.

(** The field [Literal any] holds [nil], a [float64] or a [string]. *)
Inductive Literal : Type :=
  | LNil
  | LNumber (f : float64)
  | LString (s : list rune).

Record Token : Type := mkToken {
  TokenType_ : TokenType;
  Lexeme     : list rune;
  Literal_   : Literal;
  Line       : Z
}.

(** Modelled from the spec: the error values [scanner.go] hands to
    [reportError], whose declarations are not among the sources; they are
    the four errors of section 7 of the specification. *)
Inductive LoxError : Set :=
  | ErrUnexpectedCharacter
  | ErrUnterminatedString
  | ErrUnterminatedBlockComment
  | ErrInvalidNumberLiteral.

(** ** The diagnostic sink (main.go) *)

(** One line written by [report]: the line number, the location text and
    the error. *)
Definition Diagnostic : Type := Z * string * LoxError.

Record Lox : Type := mkLox {
  hadError : bool;
  stderr   : list Diagnostic
}.

Definition report (l : Lox) (line : Z) (where_ : string) (err : LoxError) : Lox :=
  {| hadError := true; stderr := stderr l ++ [(line, where_, err)] |}.

Definition reportError (l : Lox) (line : Z) (err : LoxError) : Lox :=
  report l line EmptyString err.

(** ** The scanner state and its monad *)

Record Scanner : Type := mkScanner {
  source  : list rune;
  tokens  : list Token;
  start   : Z;
  current : Z;
  line    : Z;
  lox     : Lox
}.

Definition set_tokens (s : Scanner) (t : list Token) : Scanner :=
  mkScanner (source s) t (start s) (current s) (line s) (lox s).
Definition set_start (s : Scanner) (i : Z) : Scanner :=
  mkScanner (source s) (tokens s) i (current s) (line s) (lox s).
Definition set_current (s : Scanner) (i : Z) : Scanner :=
  mkScanner (source s) (tokens s) (start s) i (line s) (lox s).
Definition set_line (s : Scanner) (l : Z) : Scanner :=
  mkScanner (source s) (tokens s) (start s) (current s) l (lox s).
Definition set_lox (s : Scanner) (l : Lox) : Scanner :=
  mkScanner (source s) (tokens s) (start s) (current s) (line s) l.

Inductive result (A : Type) : Type :=
  | Ok (a : A)
  | Panic
  | OutOfFuel.
Arguments Ok {A} a.
Arguments Panic {A}.
Arguments OutOfFuel {A}.

Definition M (A : Type) : Type := Scanner -> result (A * Scanner).

Definition ret {A} (a : A) : M A := fun s => Ok (a, s).

Definition bind {A B} (m : M A) (k : A -> M B) : M B :=
  fun s =>
    match m s with
    | Ok (a, s') => k a s'
    | Panic => Panic
    | OutOfFuel => OutOfFuel
    end.

Declare Scope scan_scope.
Delimit Scope scan_scope with scan.
Notation "x <- m ;; k" := (bind m (fun x => k))
  (at level 61, m at next level, right associativity) : scan_scope.
Notation "m ;; k" := (bind m (fun _ => k))
  (at level 61, right associativity) : scan_scope.
Local Open Scope scan_scope.

Definition get : M Scanner := fun s => Ok (s, s).
Definition modify (f : Scanner -> Scanner) : M unit := fun s => Ok (tt, f s).
Definition lift {A} (r : result A) : M A :=
  fun s =>
    match r with
    | Ok a => Ok (a, s)
    | Panic => Panic
    | OutOfFuel => OutOfFuel
    end.

(** [a && b] on conditions that read the state: [b] is evaluated only
    when [a] holds. *)
Definition andM (a b : M bool) : M bool :=
  x <- a ;; if x then b else ret false.

(** [for cond { body }], at most [fuel] iterations. *)
Fixpoint while_ (fuel : nat) (cond : M bool) (body : M unit) : M unit :=
  c <- cond ;;
  if c then
    match fuel with
    | O => fun _ => OutOfFuel
    | S n => body ;; while_ n cond body
    end
  else ret tt.

(** Every loop of the scanner consumes a rune in each iteration, so the
    length of the source bounds the iterations. *)
Definition while (cond : M bool) (body : M unit) : M unit :=
  fun s => while_ (length (source s)) cond body s.

(** ** Slices *)

Definition len (l : list rune) : Z := Z.of_nat (length l).

(** [l[i]]: panics out of range. *)
Definition index (l : list rune) (i : Z) : result rune :=
  if (0 <=? i) && (i <? len l) then
    match nth_error l (Z.to_nat i) with
    | Some c => Ok c
    | None => Panic
    end
  else Panic.

(** [l[lo:hi]]: panics unless [0 <= lo <= hi <= len(l)].  (Go allows [hi]
    up to the capacity, which is at least the length; the scanner never
    slices beyond the length.) *)
Definition slice (l : list rune) (lo hi : Z) : result (list rune) :=
  if (0 <=? lo) && (lo <=? hi) && (hi <=? len l) then
    Ok (firstn (Z.to_nat (hi - lo)) (skipn (Z.to_nat lo) l))
  else Panic.

(** ** Decoding a number *)

(** The errors of [strconv.ParseFloat]. *)
Inductive NumError : Set := ErrSyntax | ErrRange.

(** Reading a decimal text [d..d] or [d..d.d..d]: the integer made of all
    its digits and the number of digits after the dot. *)
Definition digit_val (c : rune) : option Z :=
  if (rn "0" <=? c) && (c <=? rn "9") then Some (c - rn "0") else None.

Fixpoint read_digits (acc : Z) (n : nat) (l : list rune) : Z * nat * list rune :=
  match l with
  | [] => (acc, n, [])
  | c :: l' =>
      match digit_val c with
      | Some d => read_digits (10 * acc + d) (S n) l'
      | None => (acc, n, l)
      end
  end.

Definition read_decimal (text : list rune) : option (Z * nat) :=
  let '(i, ni, rest) := read_digits 0 0 text in
  match rest with
  | [] => if (0 <? ni)%nat then Some (i, O) else None
  | c :: rest' =>
      if c =? rn "." then
        let '(m, nf, rest'') := read_digits i 0 rest' in
        match rest'' with
        | [] => if (0 <? ni + nf)%nat then Some (m, nf) else None
        | _ :: _ => None
        end
      else None
  end.

(** The binary64 number nearest to [m / 10^k], ties to even. *)
Definition nearest_float64 (m : Z) (k : nat) : float64 :=
  match m with
  | Zpos p =>
      SFdiv 53 1024 (S754_finite false p 0)
                    (S754_finite false (Z.to_pos (10 ^ Z.of_nat k)) 0)
  | _ => S754_zero false
  end.

(** [m / 10^k] is at least the largest binary64 number plus half a unit
    in its last place, and rounds to infinity. *)
Definition out_of_range (m : Z) (k : nat) : bool :=
  (2 ^ 1024 - 2 ^ 970) * 10 ^ Z.of_nat k <=? m.

(** [strconv.ParseFloat(text, 64)] of Go's standard library, as its
    documentation has it, on the texts of decimal digits with at most one
    dot (what [number] hands to it).  Such a text is well formed when it
    holds a digit; the result is the nearest binary64 number, ties to
    even; a value that rounds beyond the largest binary64 number gives
    infinity and a range error.  A text with any other rune (sign,
    exponent, hexadecimal, infinity, NaN) is outside this model and is
    answered by [ErrSyntax]. *)
Definition ParseFloat (text : list rune) : float64 * option NumError :=
  match read_decimal text with
  | None => (S754_zero false, Some ErrSyntax)
  | Some (m, k) =>
      if out_of_range m k then (S754_infinity false, Some ErrRange)
      else (nearest_float64 m k, None)
  end.

(** * The scanner (scanner.go) *)

(** The map [keywords]; its keys are distinct. *)
Definition keywords : list (string * TokenType) :=
  [ ("and", AND); ("class", CLASS); ("else", ELSE); ("false", FALSE);
    ("for", FOR); ("fun", FUN); ("if", IF'); ("nil", NIL); ("or", OR);
    ("print", PRINT); ("return", RETURN); ("super", SUPER);
    ("this", THIS); ("true", TRUE); ("var", VAR); ("while", WHILE) ]%string.

Definition runes_eqb (a b : list rune) : bool :=
  if list_eq_dec Z.eq_dec a b then true else false.

(** [tokenType, ok := keywords[text]] *)
Definition keywords_lookup (text : list rune) : option TokenType :=
  match find (fun kv => runes_eqb (runes (fst kv)) text) keywords with
  | Some kv => Some (snd kv)
  | None => None
  end.

Definition NewScanner (src : list rune) (l : Lox) : Scanner :=
  {| source := src; tokens := []; start := 0; current := 0; line := 1;
     lox := l |}.

Definition isAtEnd : M bool :=
  s <- get ;; ret (len (source s) <=? current s).

Definition advance : M rune :=
  s <- get ;;
  ch <- lift (index (source s) (current s)) ;;
  modify (fun s => set_current s (int_add (current s) 1)) ;;
  ret ch.

Definition peek : M rune :=
  e <- isAtEnd ;;
  if e then ret 0
  else s <- get ;; lift (index (source s) (current s)).

Definition peekNext : M rune :=
  s <- get ;;
  if len (source s) <=? int_add (current s) 1 then ret 0
  else lift (index (source s) (int_add (current s) 1)).

Definition match_ (expected : rune) : M bool :=
  e <- isAtEnd ;;
  if e then ret false
  else
    s <- get ;;
    c <- lift (index (source s) (current s)) ;;
    if negb (c =? expected) then ret false
    else
      modify (fun s => set_current s (int_add (current s) 1)) ;;
      ret true.

Definition isAlpha (c : rune) : bool :=
  ((rn "a" <=? c) && (c <=? rn "z")) ||
  ((rn "A" <=? c) && (c <=? rn "Z")) ||
  (c =? rn "_").

Definition isDigit (c : rune) : bool :=
  (rn "0" <=? c) && (c <=? rn "9").

Definition isAlphaNumeric (c : rune) : bool :=
  isAlpha c || isDigit c.

Definition addTokenWithLiteral (tokenType : TokenType) (literal : Literal) : M unit :=
  s <- get ;;
  text <- lift (slice (source s) (start s) (current s)) ;;
  modify (fun s =>
    set_tokens s (tokens s ++
      [ {| TokenType_ := tokenType; Lexeme := text;
           Literal_ := literal; Line := line s |} ])).

Definition addToken (tokenType : TokenType) : M unit :=
  addTokenWithLiteral tokenType LNil.

(** [s.lox.reportError(s.line, err)] *)
Definition lox_reportError (err : LoxError) : M unit :=
  modify (fun s => set_lox s (reportError (lox s) (line s) err)).

(** [s.line++] *)
Definition line_incr : M unit :=
  modify (fun s => set_line s (int_add (line s) 1)).

Definition identifier : M unit :=
  while (c <- peek ;; ret (isAlphaNumeric c)) (advance ;; ret tt) ;;
  s <- get ;;
  text <- lift (slice (source s) (start s) (current s)) ;;
  match keywords_lookup text with
  | Some tokenType => addToken tokenType
  | None => addToken IDENTIFIER
  end.

Definition number : M unit :=
  while (c <- peek ;; ret (isDigit c)) (advance ;; ret tt) ;;
  b <- andM (c <- peek ;; ret (c =? rn "."))
            (c <- peekNext ;; ret (isDigit c)) ;;
  (if b then
     advance ;;
     while (c <- peek ;; ret (isDigit c)) (advance ;; ret tt)
   else ret tt) ;;
  s <- get ;;
  text <- lift (slice (source s) (start s) (current s)) ;;
  match ParseFloat text with
  | (_, Some _) => lox_reportError ErrInvalidNumberLiteral
  | (value, None) => addTokenWithLiteral NUMBER (LNumber value)
  end.

Definition string_ : M unit :=
  while (andM (c <- peek ;; ret (negb (c =? r_quote)))
              (e <- isAtEnd ;; ret (negb e)))
        (c <- peek ;;
         (if c =? r_newline then line_incr else ret tt) ;;
         advance ;; ret tt) ;;
  e <- isAtEnd ;;
  if e then lox_reportError ErrUnterminatedString
  else
    advance ;;
    s <- get ;;
    value <- lift (slice (source s) (int_add (start s) 1)
                                    (int_sub (current s) 1)) ;;
    addTokenWithLiteral STRING (LString value).

(** The loop of [blockComment] returns from inside its body, so it is
    written out; [fuel] bounds its iterations as in [while_]. *)
Fixpoint blockComment_ (fuel : nat) : M unit :=
  e <- isAtEnd ;;
  if negb e then
    match fuel with
    | O => fun _ => OutOfFuel
    | S n =>
        b <- andM (c <- peek ;; ret (c =? rn "*"))
                  (c <- peekNext ;; ret (c =? rn "/")) ;;
        if b then advance ;; advance ;; ret tt
        else
          c <- peek ;;
          (if c =? r_newline then line_incr else ret tt) ;;
          advance ;;
          blockComment_ n
    end
  else lox_reportError ErrUnterminatedBlockComment.

Definition blockComment : M unit :=
  fun s => blockComment_ (length (source s)) s.

Definition scanToken : M unit :=
  c <- advance ;;
  if c =? rn "(" then addToken LEFT_PAREN
  else if c =? rn ")" then addToken RIGHT_PAREN
  else if c =? rn "{" then addToken LEFT_BRACE
  else if c =? rn "}" then addToken RIGHT_BRACE
  else if c =? rn "," then addToken COMMA
  else if c =? rn "." then addToken DOT
  else if c =? rn "-" then addToken MINUS
  else if c =? rn "+" then addToken PLUS
  else if c =? rn ";" then addToken SEMICOLON
  else if c =? rn "*" then addToken STAR
  else if c =? rn "!" then
    b <- match_ (rn "=") ;;
    if b then addToken BANG_EQUAL else addToken BANG
  else if c =? rn "=" then
    b <- match_ (rn "=") ;;
    if b then addToken EQUAL_EQUAL else addToken EQUAL
  else if c =? rn "<" then
    b <- match_ (rn "=") ;;
    if b then addToken LESS_EQUAL else addToken LESS
  else if c =? rn ">" then
    b <- match_ (rn "=") ;;
    if b then addToken GREATER_EQUAL else addToken GREATER
  else if c =? rn "/" then
    b <- match_ (rn "/") ;;
    if b then
      while (andM (c <- peek ;; ret (negb (c =? r_newline)))
                  (e <- isAtEnd ;; ret (negb e)))
            (advance ;; ret tt)
    else
      b' <- match_ (rn "*") ;;
      if b' then blockComment else addToken SLASH
  else if (c =? rn " ") || (c =? r_return) || (c =? r_tab) then ret tt
  else if c =? r_newline then line_incr
  else if c =? r_quote then string_
  else if isDigit c then number
  else if isAlpha c then identifier
  else lox_reportError ErrUnexpectedCharacter.

Definition ScanTokens : M (list Token) :=
  while (e <- isAtEnd ;; ret (negb e))
        (modify (fun s => set_start s (current s)) ;; scanToken) ;;
  modify (fun s =>
    set_tokens s (tokens s ++
      [ {| TokenType_ := EOF; Lexeme := []; Literal_ := LNil;
           Line := line s |} ])) ;;
  s <- get ;;
  ret (tokens s).

(** The sink [&Lox{}] of [main], before any report. *)
Definition lox0 : Lox := {| hadError := false; stderr := [] |}.

(** [scanner := NewScanner(source, l); scanner.ScanTokens()] of [run]:
    the tokens returned, and the scanner (with the sink) left behind. *)
Definition scan (src : list rune) : result (list Token * Scanner) :=
  ScanTokens (NewScanner src lox0).

(** * Definitions for the statements *)

(** ** The input still to read, and the invariant of the state *)

(** The part of the source from the cursor on. *)
Definition remaining (s : Scanner) : list rune :=
  skipn (Z.to_nat (current s)) (source s).

(** The state after reading the runes [pre] with [nl] line breaks. *)
Definition consumed (s : Scanner) (pre : list rune) (nl : Z) : Scanner :=
  mkScanner (source s) (tokens s) (start s)
            (current s + len pre) (line s + nl) (lox s).

(** The invariant of the state: the cursor and the lexeme start are
    inside the source and no counter can pass the end of [int].  It holds
    initially when the source has fewer than [2^63 - 1] runes; a slice of
    runes, four bytes each in a 64-bit address space, has fewer. *)
Definition wf (s : Scanner) : Prop :=
  0 <= start s <= current s /\
  current s <= len (source s) /\
  0 <= line s /\
  line s + (len (source s) - current s) <= int_max /\
  len (source s) < int_max.

(** The number of line breaks in [l]. *)
Definition newlines (l : list rune) : Z :=
  Z.of_nat (count_occ Z.eq_dec l r_newline).

(** The longest prefix of [l] whose runes satisfy [p], and what follows
    it. *)
Fixpoint take_while (p : rune -> bool) (l : list rune) : list rune :=
  match l with
  | [] => []
  | c :: l' => if p c then c :: take_while p l' else []
  end.

Fixpoint drop_while (p : rune -> bool) (l : list rune) : list rune :=
  match l with
  | [] => []
  | c :: l' => if p c then drop_while p l' else l
  end.

(** The state after [s.current++] *)
Definition step1 (s : Scanner) : Scanner := set_current s (current s + 1).

(** The line breaks counted over [l], where [nl c] is what the rune [c]
    adds to the line counter. *)
Definition lines_of (nl : rune -> Z) (l : list rune) : Z :=
  fold_right (fun c a => nl c + a) 0 l.

(** ** The lexeme [scanToken] reads, as a function of the input *)

(** The runes [blockComment] reads from [l] (the input after the opening
    delimiter), and whether it found the closing delimiter. *)
Fixpoint block_span (l : list rune) : list rune * bool :=
  match l with
  | [] => ([], false)
  | c :: l' =>
      if (c =? rn "*") && (hd 0 l' =? rn "/") then ([c; hd 0 l'], true)
      else let '(pre, closed) := block_span l' in (c :: pre, closed)
  end.

(** The state in which [blockComment] leaves the scanner. *)
Definition after_block (s : Scanner) : Scanner :=
  let '(pre, closed) := block_span (remaining s) in
  let s' := consumed s pre (newlines pre) in
  if closed then s'
  else set_lox s' (reportError (lox s') (line s') ErrUnterminatedBlockComment).

(** The state at the top of the loop of [ScanTokens], after
    [s.start = s.current]. *)
Definition begin (s : Scanner) : Scanner := set_start s (current s).

(** What reading one lexeme ends in: nothing, a token, or an error
    report. *)
Inductive Outcome : Type :=
  | Skip
  | Emit (t : TokenType) (lit : Literal)
  | Report (e : LoxError).

(** The state after the lexeme [pre] with [nl] line breaks was read from
    [s] and ended in [out]. *)
Definition finish (s : Scanner) (pre : list rune) (nl : Z) (out : Outcome) : Scanner :=
  let s' := consumed (begin s) pre nl in
  match out with
  | Skip => s'
  | Emit t lit =>
      set_tokens s' (tokens s' ++
        [ {| TokenType_ := t; Lexeme := pre; Literal_ := lit; Line := line s' |} ])
  | Report e => set_lox s' (reportError (lox s') (line s') e)
  end.

Definition identifier_text (c : rune) (r : list rune) : list rune :=
  c :: take_while isAlphaNumeric r.

Definition identifier_type (text : list rune) : TokenType :=
  match keywords_lookup text with
  | Some tokenType => tokenType
  | None => IDENTIFIER
  end.

(** The text [number] matches when the first digit [c] was read and [r]
    follows it. *)
Definition number_text (c : rune) (r : list rune) : list rune :=
  let r1 := drop_while isDigit r in
  if (hd 0 r1 =? rn ".") && isDigit (hd 0 (tl r1)) then
    c :: take_while isDigit r ++ hd 0 r1 :: take_while isDigit (tl r1)
  else c :: take_while isDigit r.

Definition number_outcome (text : list rune) : Outcome :=
  match ParseFloat text with
  | (_, Some _) => Report ErrInvalidNumberLiteral
  | (value, None) => Emit NUMBER (LNumber value)
  end.

Definition not_quote (c : rune) : bool := negb (c =? r_quote).

Definition string_lexeme (c : rune) (r : list rune) : list rune :=
  match drop_while not_quote r with
  | [] => c :: take_while not_quote r
  | q :: _ => c :: take_while not_quote r ++ [q]
  end.

Definition string_outcome (r : list rune) : Outcome :=
  match drop_while not_quote r with
  | [] => Report ErrUnterminatedString
  | _ :: _ => Emit STRING (LString (take_while not_quote r))
  end.

Definition next_is (x : rune) (r : list rune) : bool :=
  match r with
  | [] => false
  | d :: _ => d =? x
  end.

Definition not_newline (c : rune) : bool := negb (c =? r_newline).

Definition Lexed : Type := list rune * Z * Outcome.

Definition lex_operator (c : rune) (r : list rune) (two one : TokenType) : Lexed :=
  if next_is (rn "=") r then ([c; rn "="], 0, Emit two LNil)
  else ([c], 0, Emit one LNil).

Definition lex_slash (c : rune) (r : list rune) : Lexed :=
  if next_is (rn "/") r then
    (c :: rn "/" :: take_while not_newline (tl r), 0, Skip)
  else if next_is (rn "*") r then
    let '(pre, closed) := block_span (tl r) in
    (c :: rn "*" :: pre, newlines pre,
     if closed then Skip else Report ErrUnterminatedBlockComment)
  else ([c], 0, Emit SLASH LNil).

(** The lexeme that starts with the rune [c] followed by [r]: the runes
    read, the line breaks among them, and the outcome.  This follows
    [scanToken] case by case on the input as a list; [scanToken_spec]
    shows that [scanToken] computes it. *)
Definition lex (c : rune) (r : list rune) : Lexed :=
  if c =? rn "(" then ([c], 0, Emit LEFT_PAREN LNil)
  else if c =? rn ")" then ([c], 0, Emit RIGHT_PAREN LNil)
  else if c =? rn "{" then ([c], 0, Emit LEFT_BRACE LNil)
  else if c =? rn "}" then ([c], 0, Emit RIGHT_BRACE LNil)
  else if c =? rn "," then ([c], 0, Emit COMMA LNil)
  else if c =? rn "." then ([c], 0, Emit DOT LNil)
  else if c =? rn "-" then ([c], 0, Emit MINUS LNil)
  else if c =? rn "+" then ([c], 0, Emit PLUS LNil)
  else if c =? rn ";" then ([c], 0, Emit SEMICOLON LNil)
  else if c =? rn "*" then ([c], 0, Emit STAR LNil)
  else if c =? rn "!" then lex_operator c r BANG_EQUAL BANG
  else if c =? rn "=" then lex_operator c r EQUAL_EQUAL EQUAL
  else if c =? rn "<" then lex_operator c r LESS_EQUAL LESS
  else if c =? rn ">" then lex_operator c r GREATER_EQUAL GREATER
  else if c =? rn "/" then lex_slash c r
  else if (c =? rn " ") || (c =? r_return) || (c =? r_tab) then ([c], 0, Skip)
  else if c =? r_newline then ([c], 1, Skip)
  else if c =? r_quote then
    (string_lexeme c r, newlines (take_while not_quote r), string_outcome r)
  else if isDigit c then
    (number_text c r, 0, number_outcome (number_text c r))
  else if isAlpha c then
    (identifier_text c r, 0, Emit (identifier_type (identifier_text c r)) LNil)
  else ([c], 0, Report ErrUnexpectedCharacter).

Definition finish_lexed (s : Scanner) (x : Lexed) : Scanner :=
  let '(pre, nl, out) := x in finish s pre nl out.

(** The shape of a lexeme: a non-empty prefix of the input, with its line
    breaks counted. *)
Definition lexed_ok (c : rune) (r : list rune) (x : Lexed) : Prop :=
  let '(pre, nl, _) := x in
  (exists rest, c :: r = pre ++ rest) /\ pre <> [] /\ nl = newlines pre.

(** ** The loop of [ScanTokens] *)

Definition loop_cond : M bool := e <- isAtEnd ;; ret (negb e).

Definition loop_body : M unit :=
  modify (fun s => set_start s (current s)) ;; scanToken.

Definition eof_token (l : Z) : Token :=
  {| TokenType_ := EOF; Lexeme := []; Literal_ := LNil; Line := l |}.

(** [iterates s s'] : the loop of [ScanTokens] started in [s] is in [s']
    at the top of some later iteration. *)
Inductive iterates : Scanner -> Scanner -> Prop :=
  | iterates_refl s : iterates s s
  | iterates_step s s1 s2 :
      loop_cond s = Ok (true, s) ->
      loop_body s = Ok (tt, s1) ->
      iterates s1 s2 ->
      iterates s s2.

Definition no_eof (ts : list Token) : Prop :=
  Forall (fun t => TokenType_ t <> EOF) ts.

Definition lines_sorted (s : Scanner) : Prop :=
  StronglySorted Z.le (map Line (tokens s)) /\
  Forall (fun t => Line t <= line s) (tokens s).

(** ** Vocabulary of the properties *)

(** The runes [scanToken] has a case for. *)
Definition recognized (c : rune) : bool :=
  existsb (Z.eqb c)
    [ rn "("; rn ")"; rn "{"; rn "}"; rn ","; rn "."; rn "-"; rn "+";
      rn ";"; rn "*"; rn "!"; rn "="; rn "<"; rn ">"; rn "/";
      rn " "; r_return; r_tab; r_newline; r_quote ]
  || isDigit c || isAlpha c.

Definition unexpected_at (l : Z) : Diagnostic :=
  (l, EmptyString, ErrUnexpectedCharacter).

(** The runes that start an operator, with the token types of the
    two-character and of the one-character form. *)
Definition operator_tokens (c : rune) : option (TokenType * TokenType) :=
  if c =? rn "!" then Some (BANG_EQUAL, BANG)
  else if c =? rn "=" then Some (EQUAL_EQUAL, EQUAL)
  else if c =? rn "<" then Some (LESS_EQUAL, LESS)
  else if c =? rn ">" then Some (GREATER_EQUAL, GREATER)
  else None.

Definition plain_token (t : TokenType) (text : list rune) (l : Z) : Token :=
  {| TokenType_ := t; Lexeme := text; Literal_ := LNil; Line := l |}.

(** The line, counted from 1, on which the rune at index [i] of [src]
    lies: one more than the line breaks before it. *)
Definition line_of (src : list rune) (i : Z) : Z :=
  1 + newlines (firstn (Z.to_nat i) src).

(** A string over two lines, with a backslash in it. *)
Definition example_string_body : list rune :=
  runes "a" ++ [r_backslash; r_newline] ++ runes "b".

Definition example_string_src : list rune :=
  r_quote :: example_string_body ++ [r_quote] ++ runes "x".

Definition unterminated_string_at (l : Z) : Diagnostic :=
  (l, EmptyString, ErrUnterminatedString).

(** A source that ends inside a string, after one token. *)
Definition example_open_src : list rune :=
  runes "(" ++ r_quote :: runes "hi" ++ [r_newline].

Definition example_open_state : Scanner :=
  finish (NewScanner example_open_src lox0) [rn "("] 0 (Emit LEFT_PAREN LNil).

(** The closing delimiter occurs in [l]. *)
Definition occurs_close (l : list rune) : Prop :=
  exists a b, l = a ++ rn "*" :: rn "/" :: b.

(** The binary64 number [m * 2^e]. *)
Definition dyadic (m e : Z) : float64 := binary_normalize 53 1024 m e false.

Definition number_token (text : list rune) (v : float64) (l : Z) : Token :=
  {| TokenType_ := NUMBER; Lexeme := text; Literal_ := LNumber v; Line := l |}.

Definition unterminated_comment_at (l : Z) : Diagnostic :=
  (l, EmptyString, ErrUnterminatedBlockComment).

Definition digits (l : list rune) : Prop :=
  Forall (fun c => isDigit c = true) l.

Definition invalid_number_at (l : Z) : Diagnostic :=
  (l, EmptyString, ErrInvalidNumberLiteral).

(** The number written by the digits [ds] after the digits that gave
    [acc]. *)
Definition digits_value (acc : Z) (ds : list rune) : Z :=
  fold_left (fun a c => 10 * a + (c - rn "0")) ds acc.

(** A source whose only lexeme is the digit 1 followed by 309 zeros. *)
Definition huge_number : list rune := rn "1" :: repeat (rn "0") 309.

(** ** Vocabulary of the further properties *)

(** The runes that are a token by themselves, with their token type
    (for the slash: when neither a slash nor a star follows). *)
Definition punctuation (c : rune) : option TokenType :=
  if c =? rn "(" then Some LEFT_PAREN
  else if c =? rn ")" then Some RIGHT_PAREN
  else if c =? rn "{" then Some LEFT_BRACE
  else if c =? rn "}" then Some RIGHT_BRACE
  else if c =? rn "," then Some COMMA
  else if c =? rn "." then Some DOT
  else if c =? rn "-" then Some MINUS
  else if c =? rn "+" then Some PLUS
  else if c =? rn ";" then Some SEMICOLON
  else if c =? rn "*" then Some STAR
  else if c =? rn "/" then Some SLASH
  else None.

(** Space, carriage return and tab. *)
Definition blank (c : rune) : bool :=
  (c =? rn " ") || (c =? r_return) || (c =? r_tab).

(** The text of the tokens that are always written the same way. *)
Definition spelling (t : TokenType) : option (list rune) :=
  match t with
  | LEFT_PAREN => Some (runes "(") | RIGHT_PAREN => Some (runes ")")
  | LEFT_BRACE => Some (runes "{") | RIGHT_BRACE => Some (runes "}")
  | COMMA => Some (runes ",") | DOT => Some (runes ".")
  | MINUS => Some (runes "-") | PLUS => Some (runes "+")
  | SEMICOLON => Some (runes ";") | SLASH => Some (runes "/")
  | STAR => Some (runes "*")
  | BANG => Some (runes "!") | BANG_EQUAL => Some (runes "!=")
  | EQUAL => Some (runes "=") | EQUAL_EQUAL => Some (runes "==")
  | GREATER => Some (runes ">") | GREATER_EQUAL => Some (runes ">=")
  | LESS => Some (runes "<") | LESS_EQUAL => Some (runes "<=")
  | AND => Some (runes "and") | CLASS => Some (runes "class")
  | ELSE => Some (runes "else") | FALSE => Some (runes "false")
  | FUN => Some (runes "fun") | FOR => Some (runes "for")
  | IF' => Some (runes "if") | NIL => Some (runes "nil")
  | OR => Some (runes "or") | PRINT => Some (runes "print")
  | RETURN => Some (runes "return") | SUPER => Some (runes "super")
  | THIS => Some (runes "this") | TRUE => Some (runes "true")
  | VAR => Some (runes "var") | WHILE => Some (runes "while")
  | EOF => Some []
  | IDENTIFIER | STRING | NUMBER => None
  end.

(** What the literal and the lexeme of a token are, by its type. *)
Definition token_shape (t : Token) : Prop :=
  match TokenType_ t with
  | NUMBER =>
      exists v, Literal_ t = LNumber v /\ ParseFloat (Lexeme t) = (v, None)
  | STRING =>
      exists body,
        Lexeme t = r_quote :: body ++ [r_quote] /\
        Literal_ t = LString body /\ ~ In r_quote body
  | IDENTIFIER =>
      Literal_ t = LNil /\
      keywords_lookup (Lexeme t) = None /\
      exists c rest,
        Lexeme t = c :: rest /\ isAlpha c = true /\
        Forall (fun x => isAlphaNumeric x = true) rest
  | _ => Literal_ t = LNil
  end.

(** [Placed ts p]: the lexemes of the tokens [ts] lie in the text [p] in
    the order of [ts], one after the other without overlap, each of them
    not empty and not ending in a line break; the line of a token is one
    more than the line breaks of [p] up to the end of its lexeme. *)
Inductive Placed : list Token -> list rune -> Prop :=
  | Placed_nil : Placed [] []
  | Placed_skip ts p g : Placed ts p -> Placed ts (p ++ g)
  | Placed_token ts p t :
      Placed ts p ->
      Lexeme t <> [] ->
      last (Lexeme t) 0 <> r_newline ->
      Line t = 1 + newlines (p ++ Lexeme t) ->
      Placed (ts ++ [t]) (p ++ Lexeme t).

(** The line number of a record of the sink. *)
Definition diagnostic_line (d : Diagnostic) : Z := fst (fst d).

(** The sink [x] of a scan, had the scan started with the sink [l]
    instead of an empty one. *)
Definition merge_lox (l x : Lox) : Lox :=
  {| hadError := hadError l || hadError x; stderr := stderr l ++ stderr x |}.

Definition with_sink (l : Lox) (s : Scanner) : Scanner :=
  set_lox s (merge_lox l (lox s)).

(** ** The driver (main.go) *)

(** [run]: the standard output is kept as the tokens printed, one on a
    line, in their order; the sink is the one the scanner has reported
    to. *)
Definition run (l : Lox) (source : list rune) : result (list Token * Lox) :=
  match ScanTokens (NewScanner source l) with
  | Ok (tokens, s) => Ok (tokens, lox s)
  | Panic => Panic
  | OutOfFuel => OutOfFuel
  end.

(** How a call ends: it returns (with an error or with [nil]) or the
    process exits with a status. *)
Inductive Ending : Type :=
  | Returned (err : bool)
  | Exited (code : Z).

(** [runFile]: [file] is what [os.ReadFile] gives for the path, [None]
    for an error and the text of the file otherwise. *)
Definition runFile (l : Lox) (file : option (list rune))
  : result (list Token * Lox * Ending) :=
  match file with
  | None => Ok ([], l, Returned true)
  | Some source =>
      match run l source with
      | Ok (printed, l') =>
          if hadError l' then Ok (printed, l', Exited 65)
          else Ok (printed, l', Returned false)
      | Panic => Panic
      | OutOfFuel => OutOfFuel
      end
  end.

(** * Proofs *)

(** ** Arithmetic of [int] *)

Lemma int_wrap_small z : int_min <= z <= int_max -> int_wrap z = z.
Proof.
  unfold int_min, int_max, int_wrap.
  change (2 ^ 63) with 9223372036854775808.
  change (2 ^ 64) with 18446744073709551616.
  intros H. rewrite Z.mod_small by lia. lia.
Qed.

Lemma int_max_val : int_max = 9223372036854775807.
Proof. reflexivity. Qed.

Lemma int_min_val : int_min = -9223372036854775808.
Proof. reflexivity. Qed.

Lemma int_add_small a b :
  int_min <= a + b <= int_max -> int_add a b = a + b.
Proof. apply int_wrap_small. Qed.

Lemma int_sub_small a b :
  int_min <= a - b <= int_max -> int_sub a b = a - b.
Proof. apply int_wrap_small. Qed.

(** ** Lists *)

Lemma len_nil : len [] = 0.
Proof. reflexivity. Qed.

Lemma len_cons c l : len (c :: l) = 1 + len l.
Proof. unfold len. simpl length. lia. Qed.

Lemma len_app l1 l2 : len (l1 ++ l2) = len l1 + len l2.
Proof. unfold len. rewrite length_app. lia. Qed.

Lemma len_nonneg l : 0 <= len l.
Proof. unfold len. lia. Qed.

Lemma skipn_cons_inv {A} (n : nat) (l : list A) c r :
  skipn n l = c :: r ->
  nth_error l n = Some c /\ skipn (S n) l = r /\ (n < length l)%nat.
Proof.
  revert l. induction n as [|n IH]; intros [|x l] H; simpl in *; try discriminate.
  - inversion H; subst. repeat split; lia.
  - destruct (IH l H) as (H1 & H2 & H3). repeat split; auto. lia.
Qed.

Lemma skipn_nil_inv {A} (n : nat) (l : list A) :
  skipn n l = [] -> (length l <= n)%nat.
Proof.
  intros H. pose proof (length_skipn n l) as E. rewrite H in E. simpl in E. lia.
Qed.

Lemma newlines_nil : newlines [] = 0.
Proof. reflexivity. Qed.

Lemma newlines_cons c l :
  newlines (c :: l) = (if c =? r_newline then 1 else 0) + newlines l.
Proof.
  unfold newlines. destruct (Z.eq_dec c r_newline) as [E|E].
  - rewrite count_occ_cons_eq by assumption. subst. rewrite Z.eqb_refl. lia.
  - rewrite count_occ_cons_neq by assumption.
    apply Z.eqb_neq in E. rewrite E. lia.
Qed.

Lemma newlines_app l1 l2 : newlines (l1 ++ l2) = newlines l1 + newlines l2.
Proof. unfold newlines. rewrite count_occ_app. lia. Qed.

Lemma newlines_bounds l : 0 <= newlines l <= len l.
Proof.
  unfold newlines, len. pose proof (count_occ_bound Z.eq_dec r_newline l). lia.
Qed.

Lemma take_drop_while p l : take_while p l ++ drop_while p l = l.
Proof.
  induction l as [|c l IH]; simpl; auto.
  destruct (p c); simpl; congruence.
Qed.

Lemma take_while_all p l : Forall (fun c => p c = true) (take_while p l).
Proof.
  induction l as [|c l IH]; simpl; auto.
  destruct (p c) eqn:E; auto.
Qed.

Lemma drop_while_head p l : p (hd 0 (drop_while p l)) = true -> drop_while p l = [].
Proof.
  induction l as [|c l IH]; simpl; auto.
  destruct (p c) eqn:E; auto. simpl. congruence.
Qed.

Lemma take_while_app p l1 l2 :
  Forall (fun c => p c = true) l1 ->
  take_while p (l1 ++ l2) = l1 ++ take_while p l2.
Proof.
  induction 1 as [|c l Hc Hl IH]; simpl; auto.
  rewrite Hc, IH. reflexivity.
Qed.

(** ** The primitives on the remaining input *)

Lemma bind_ok {A B} (m : M A) (k : A -> M B) s a s' :
  m s = Ok (a, s') -> bind m k s = k a s'.
Proof. unfold bind. intros ->. reflexivity. Qed.

Lemma bind_assoc {A B C} (m : M A) (f : A -> M B) (g : B -> M C) s :
  bind (bind m f) g s = bind m (fun x => bind (f x) g) s.
Proof. unfold bind. destruct (m s) as [[a s']| |]; reflexivity. Qed.

Lemma bind_ret {A B} (a : A) (k : A -> M B) s : bind (ret a) k s = k a s.
Proof. reflexivity. Qed.

Lemma wf_current_nonneg s : wf s -> 0 <= current s.
Proof. unfold wf. lia. Qed.

Lemma remaining_length s :
  wf s -> len (remaining s) = len (source s) - current s.
Proof.
  unfold wf, remaining, len. intros H. rewrite length_skipn. lia.
Qed.

Lemma remaining_nil s : wf s -> remaining s = [] -> current s = len (source s).
Proof.
  intros H E. pose proof (remaining_length s H) as L.
  rewrite E, len_nil in L. lia.
Qed.

Lemma remaining_cons_lt s c r :
  wf s -> remaining s = c :: r -> current s < len (source s).
Proof.
  intros H E. pose proof (remaining_length s H) as L.
  rewrite E, len_cons in L. pose proof (len_nonneg r). lia.
Qed.

Lemma index_remaining s c r :
  wf s -> remaining s = c :: r -> index (source s) (current s) = Ok c.
Proof.
  intros H E. pose proof (remaining_cons_lt s c r H E) as L.
  pose proof (wf_current_nonneg s H) as P.
  unfold index. destruct (skipn_cons_inv _ _ _ _ E) as (N & _ & _).
  rewrite N.
  replace (0 <=? current s) with true by (symmetry; apply Z.leb_le; lia).
  replace (current s <? len (source s)) with true
    by (symmetry; apply Z.ltb_lt; lia).
  reflexivity.
Qed.

Lemma isAtEnd_spec s :
  wf s ->
  isAtEnd s = Ok (match remaining s with [] => true | _ :: _ => false end, s).
Proof.
  intros H. unfold isAtEnd, bind, get, ret. f_equal. f_equal.
  destruct (remaining s) as [|c r] eqn:E.
  - apply Z.leb_le. rewrite (remaining_nil s H E). lia.
  - apply Z.leb_gt. apply (remaining_cons_lt s c r H E).
Qed.

Lemma peek_spec s : wf s -> peek s = Ok (hd 0 (remaining s), s).
Proof.
  intros H. unfold peek. rewrite (bind_ok _ _ _ _ _ (isAtEnd_spec s H)).
  destruct (remaining s) as [|c r] eqn:E; simpl.
  - reflexivity.
  - unfold bind, get, lift. rewrite (index_remaining s c r H E). reflexivity.
Qed.

Lemma remaining_step1 s c r :
  wf s -> remaining s = c :: r -> remaining (step1 s) = r.
Proof.
  intros H E. pose proof (wf_current_nonneg s H).
  unfold remaining, step1, set_current; simpl.
  destruct (skipn_cons_inv _ _ _ _ E) as (_ & R & _).
  replace (Z.to_nat (current s + 1)) with (S (Z.to_nat (current s))) by lia.
  exact R.
Qed.

Lemma wf_step1 s c r : wf s -> remaining s = c :: r -> wf (step1 s).
Proof.
  intros H E. pose proof (remaining_cons_lt s c r H E).
  unfold wf, step1, set_current in *; simpl. lia.
Qed.

Lemma current_incr s c r :
  wf s -> remaining s = c :: r -> int_add (current s) 1 = current s + 1.
Proof.
  intros H E. pose proof (remaining_cons_lt s c r H E).
  apply int_add_small. rewrite int_min_val, int_max_val.
  unfold wf in H. rewrite int_max_val in H. lia.
Qed.

Lemma advance_spec s c r :
  wf s -> remaining s = c :: r -> advance s = Ok (c, step1 s).
Proof.
  intros H E. unfold advance, bind, get, lift, modify, ret.
  rewrite (index_remaining s c r H E).
  rewrite (current_incr s c r H E). reflexivity.
Qed.

Lemma advance_set_line s l c r :
  wf s -> remaining s = c :: r ->
  advance (set_line s l) = Ok (c, step1 (set_line s l)).
Proof.
  intros H E. unfold advance, bind, get, lift, modify, ret.
  change (source (set_line s l)) with (source s).
  change (current (set_line s l)) with (current s).
  rewrite (index_remaining s c r H E).
  unfold step1.
  change (current (set_line s l)) with (current s).
  rewrite (current_incr s c r H E). reflexivity.
Qed.

Lemma peekNext_spec s : wf s -> peekNext s = Ok (hd 0 (tl (remaining s)), s).
Proof.
  intros H. unfold peekNext, bind, get, ret, lift.
  destruct (remaining s) as [|c r] eqn:E; simpl.
  - pose proof (remaining_nil s H E) as L.
    rewrite int_add_small
      by (unfold wf in H; rewrite int_min_val; rewrite int_max_val in *; lia).
    replace (len (source s) <=? current s + 1) with true
      by (symmetry; apply Z.leb_le; lia).
    reflexivity.
  - rewrite (current_incr s c r H E).
    pose proof (wf_step1 s c r H E) as H1.
    pose proof (remaining_step1 s c r H E) as R1.
    destruct r as [|d r'].
    + pose proof (remaining_nil _ H1 R1) as L. simpl in L.
      replace (len (source s) <=? current s + 1) with true
        by (symmetry; apply Z.leb_le; lia).
      reflexivity.
    + pose proof (remaining_cons_lt _ _ _ H1 R1) as L. simpl in L.
      replace (len (source s) <=? current s + 1) with false
        by (symmetry; apply Z.leb_gt; lia).
      change (current s + 1) with (current (step1 s)) at 1.
      change (source s) with (source (step1 s)).
      rewrite (index_remaining _ _ _ H1 R1). reflexivity.
Qed.

Lemma match_spec s x :
  wf s ->
  match_ x s =
  match remaining s with
  | [] => Ok (false, s)
  | c :: _ => if c =? x then Ok (true, step1 s) else Ok (false, s)
  end.
Proof.
  intros H. unfold match_. rewrite (bind_ok _ _ _ _ _ (isAtEnd_spec s H)).
  destruct (remaining s) as [|c r] eqn:E; simpl.
  - reflexivity.
  - unfold bind, get, lift, modify, ret.
    rewrite (index_remaining s c r H E).
    destruct (c =? x); simpl; auto.
    rewrite (current_incr s c r H E). reflexivity.
Qed.

Lemma line_incr_spec s c r :
  wf s -> remaining s = c :: r ->
  line_incr s = Ok (tt, set_line s (line s + 1)).
Proof.
  intros H E. pose proof (remaining_cons_lt s c r H E).
  unfold line_incr, modify. rewrite int_add_small; auto.
  unfold wf in H. rewrite int_min_val. rewrite int_max_val in *. lia.
Qed.

Lemma consumed_nil s : consumed s [] 0 = s.
Proof.
  destruct s. unfold consumed; simpl. rewrite len_nil. f_equal; lia.
Qed.

Lemma remaining_consumed s pre r nl :
  wf s -> remaining s = pre ++ r -> remaining (consumed s pre nl) = r.
Proof.
  intros H E. pose proof (wf_current_nonneg s H).
  unfold remaining, consumed in *; simpl.
  replace (Z.to_nat (current s + len pre))
    with (length pre + Z.to_nat (current s))%nat by (unfold len; lia).
  rewrite <- skipn_skipn, E, skipn_app, skipn_all, Nat.sub_diag.
  reflexivity.
Qed.

Lemma wf_consumed s pre r nl :
  wf s -> remaining s = pre ++ r -> 0 <= nl <= len pre ->
  wf (consumed s pre nl).
Proof.
  intros H E N. pose proof (remaining_length s H) as L.
  rewrite E, len_app in L. pose proof (len_nonneg r). pose proof (len_nonneg pre).
  unfold wf, consumed in *; simpl. lia.
Qed.

Lemma consumed_consumed s p1 n1 p2 n2 :
  consumed (consumed s p1 n1) p2 n2 = consumed s (p1 ++ p2) (n1 + n2).
Proof.
  unfold consumed; simpl. rewrite len_app. f_equal; lia.
Qed.

Lemma step1_consumed s c : step1 s = consumed s [c] 0.
Proof.
  unfold step1, set_current, consumed. rewrite len_cons, len_nil.
  f_equal; lia.
Qed.

(** ** The loops that read runes one by one *)

Lemma lines_of_zero l : lines_of (fun _ => 0) l = 0.
Proof. induction l; simpl; lia. Qed.

Lemma lines_of_newlines l :
  lines_of (fun c => if c =? r_newline then 1 else 0) l = newlines l.
Proof.
  induction l as [|c l IH]; simpl; auto. rewrite newlines_cons, IH. reflexivity.
Qed.

Lemma lines_of_bounds nl l :
  (forall c, 0 <= nl c <= 1) -> 0 <= lines_of nl l <= len l.
Proof.
  intros N. induction l as [|c l IH]; simpl.
  - rewrite len_nil. lia.
  - rewrite len_cons. specialize (N c). lia.
Qed.

Section ScanLoop.

(** A loop that goes on while the next rune satisfies [p] and whose body
    reads that rune, adding [nl c] to the line counter. *)
Variable p : rune -> bool.
Variable nl : rune -> Z.
Variable cond : M bool.
Variable body : M unit.

Hypothesis nl_bounds : forall c, 0 <= nl c <= 1.

Hypothesis cond_spec : forall s,
  wf s ->
  cond s = Ok (match remaining s with [] => false | c :: _ => p c end, s).

Hypothesis body_spec : forall s c r,
  wf s -> remaining s = c :: r -> p c = true ->
  body s = Ok (tt, consumed s [c] (nl c)).

Lemma while_fuel_scan : forall fuel s,
  wf s -> (length (remaining s) <= fuel)%nat ->
  while_ fuel cond body s =
  Ok (tt, consumed s (take_while p (remaining s))
                     (lines_of nl (take_while p (remaining s)))).
Proof.
  induction fuel as [|n IH]; intros s H L.
  - destruct (remaining s) as [|c r] eqn:E; [|simpl in L; lia].
    simpl. rewrite (bind_ok _ _ _ _ _ (cond_spec s H)), E.
    rewrite consumed_nil. reflexivity.
  - simpl. rewrite (bind_ok _ _ _ _ _ (cond_spec s H)).
    destruct (remaining s) as [|c r] eqn:E.
    + simpl. rewrite consumed_nil. reflexivity.
    + simpl. destruct (p c) eqn:P.
      * rewrite (bind_ok _ _ _ _ _ (body_spec s c r H E P)).
        assert (H1 : wf (consumed s [c] (nl c))).
        { apply (wf_consumed s [c] r); auto. }
        assert (R1 : remaining (consumed s [c] (nl c)) = r).
        { apply remaining_consumed; auto. }
        rewrite IH; auto.
        -- rewrite R1, consumed_consumed. reflexivity.
        -- rewrite R1. simpl in L. lia.
      * rewrite consumed_nil. reflexivity.
Qed.

Lemma while_scan s :
  wf s ->
  while cond body s =
  Ok (tt, consumed s (take_while p (remaining s))
                     (lines_of nl (take_while p (remaining s)))).
Proof.
  intros H. unfold while. apply while_fuel_scan; auto.
  unfold remaining. rewrite length_skipn. lia.
Qed.

End ScanLoop.

(** [for pred(s.peek()) { s.advance() }] reads the longest run of runes
    satisfying [pred]. *)
Lemma while_peek_advance (p : rune -> bool) s :
  p 0 = false -> wf s ->
  while (c <- peek ;; ret (p c)) (advance ;; ret tt) s =
  Ok (tt, consumed s (take_while p (remaining s)) 0).
Proof.
  intros P0 H.
  rewrite (while_scan p (fun _ => 0)); auto.
  - rewrite lines_of_zero. reflexivity.
  - intros; lia.
  - intros s' H'. rewrite (bind_ok _ _ _ _ _ (peek_spec s' H')).
    unfold ret. destruct (remaining s'); simpl; congruence.
  - intros s' c r H' E _. rewrite (bind_ok _ _ _ _ _ (advance_spec s' c r H' E)).
    unfold ret. rewrite (step1_consumed s' c). reflexivity.
Qed.

(** The condition [s.peek() != x && !s.isAtEnd()]. *)
Lemma cond_until_spec x s :
  wf s ->
  andM (c <- peek ;; ret (negb (c =? x))) (e <- isAtEnd ;; ret (negb e)) s =
  Ok (match remaining s with [] => false | c :: _ => negb (c =? x) end, s).
Proof.
  intros H. unfold andM.
  erewrite bind_ok
    by (erewrite bind_ok by (apply peek_spec; exact H); reflexivity).
  destruct (remaining s) as [|c r] eqn:E; cbn [hd].
  - destruct (negb (0 =? x)); auto.
    rewrite (bind_ok _ _ _ _ _ (isAtEnd_spec s H)), E. reflexivity.
  - destruct (negb (c =? x)); auto.
    rewrite (bind_ok _ _ _ _ _ (isAtEnd_spec s H)), E. reflexivity.
Qed.

(** The loop of a line comment reads up to the next line break. *)
Lemma while_line_comment s :
  wf s ->
  while (andM (c <- peek ;; ret (negb (c =? r_newline)))
              (e <- isAtEnd ;; ret (negb e)))
        (advance ;; ret tt) s =
  Ok (tt, consumed s (take_while (fun c => negb (c =? r_newline)) (remaining s)) 0).
Proof.
  intros H.
  rewrite (while_scan (fun c => negb (c =? r_newline)) (fun _ => 0)); auto.
  - rewrite lines_of_zero. reflexivity.
  - intros; lia.
  - intros s' H'. apply cond_until_spec; auto.
  - intros s' c r H' E _. rewrite (bind_ok _ _ _ _ _ (advance_spec s' c r H' E)).
    unfold ret. rewrite (step1_consumed s' c). reflexivity.
Qed.

(** The loop of [string] reads up to the next double quote and counts the
    line breaks. *)
Lemma while_string s :
  wf s ->
  while (andM (c <- peek ;; ret (negb (c =? r_quote)))
              (e <- isAtEnd ;; ret (negb e)))
        (c <- peek ;;
         (if c =? r_newline then line_incr else ret tt) ;;
         advance ;; ret tt) s =
  Ok (tt, consumed s (take_while (fun c => negb (c =? r_quote)) (remaining s))
                     (newlines (take_while (fun c => negb (c =? r_quote)) (remaining s)))).
Proof.
  intros H.
  rewrite (while_scan (fun c => negb (c =? r_quote))
                      (fun c => if c =? r_newline then 1 else 0)); auto.
  - rewrite lines_of_newlines. reflexivity.
  - intros c; destruct (c =? r_newline); lia.
  - intros s' H'. apply cond_until_spec; auto.
  - intros s' c r H' E _.
    rewrite (bind_ok _ _ _ _ _ (peek_spec s' H')), E. simpl hd.
    destruct (c =? r_newline).
    + rewrite (bind_ok _ _ _ _ _ (line_incr_spec s' c r H' E)).
      rewrite (bind_ok _ _ _ _ _ (advance_set_line s' _ c r H' E)).
      unfold ret, step1, set_current, set_line, consumed; simpl.
      rewrite len_cons, len_nil. reflexivity.
    + unfold ret at 1. unfold bind at 1.
      rewrite (bind_ok _ _ _ _ _ (advance_spec s' c r H' E)).
      unfold ret. rewrite (step1_consumed s' c).
      unfold consumed; simpl. repeat f_equal.
Qed.

(** ** Block comments *)

Lemma block_span_prefix l :
  exists rest, l = fst (block_span l) ++ rest.
Proof.
  induction l as [|c l IH]; simpl.
  - exists []. reflexivity.
  - destruct ((c =? rn "*") && (hd 0 l =? rn "/")) eqn:E.
    + apply andb_true_iff in E. destruct E as [_ E].
      destruct l as [|d l']; [discriminate|]. simpl. exists l'. reflexivity.
    + destruct (block_span l) as [pre closed]. simpl in *.
      destruct IH as [rest IH]. exists rest. congruence.
Qed.

Lemma cond_close_spec s :
  wf s ->
  andM (c <- peek ;; ret (c =? rn "*")) (c <- peekNext ;; ret (c =? rn "/")) s =
  Ok ((hd 0 (remaining s) =? rn "*") && (hd 0 (tl (remaining s)) =? rn "/"), s).
Proof.
  intros H. unfold andM.
  erewrite bind_ok
    by (erewrite bind_ok by (apply peek_spec; exact H); reflexivity).
  destruct (hd 0 (remaining s) =? rn "*"); cbn [andb].
  - rewrite (bind_ok _ _ _ _ _ (peekNext_spec s H)). reflexivity.
  - reflexivity.
Qed.

Lemma blockComment_fuel_spec : forall fuel s,
  wf s -> (length (remaining s) <= fuel)%nat ->
  blockComment_ fuel s = Ok (tt, after_block s).
Proof.
  induction fuel as [|n IH]; intros s H L.
  - destruct (remaining s) as [|c r] eqn:E; [|simpl in L; lia].
    simpl. rewrite (bind_ok _ _ _ _ _ (isAtEnd_spec s H)), E. cbn [negb].
    unfold after_block. rewrite E. simpl block_span. cbv iota beta.
    rewrite newlines_nil, consumed_nil. reflexivity.
  - simpl. rewrite (bind_ok _ _ _ _ _ (isAtEnd_spec s H)).
    unfold after_block.
    destruct (remaining s) as [|c r] eqn:E; cbn [negb].
    + simpl block_span. cbv iota beta.
      rewrite newlines_nil, consumed_nil. reflexivity.
    + rewrite (bind_ok _ _ _ _ _ (cond_close_spec s H)), E. cbn [hd tl].
      cbn [block_span].
      destruct ((c =? rn "*") && (hd 0 r =? rn "/")) eqn:C.
      * apply andb_true_iff in C. destruct C as [C1 C2].
        destruct r as [|d r']; [discriminate|]. cbn [hd] in *.
        rewrite (bind_ok _ _ _ _ _ (advance_spec s c _ H E)).
        pose proof (wf_step1 s c _ H E) as H1.
        pose proof (remaining_step1 s c _ H E) as R1.
        rewrite (bind_ok _ _ _ _ _ (advance_spec _ d _ H1 R1)).
        unfold ret. do 2 f_equal.
        apply Z.eqb_eq in C1, C2. subst c d.
        change (newlines [rn "*"; rn "/"]) with 0.
        rewrite (step1_consumed s (rn "*")), (step1_consumed _ (rn "/")).
        rewrite consumed_consumed. reflexivity.
      * rewrite (bind_ok _ _ _ _ _ (peek_spec s H)), E. cbn [hd].
        assert (H1 : wf (consumed s [c] (if c =? r_newline then 1 else 0))).
        { apply (wf_consumed s [c] r); auto.
          rewrite len_cons, len_nil. destruct (c =? r_newline); lia. }
        assert (R1 : remaining (consumed s [c] (if c =? r_newline then 1 else 0)) = r).
        { apply remaining_consumed; auto. }
        assert (K : blockComment_ n (consumed s [c] (if c =? r_newline then 1 else 0))
                    = Ok (tt, after_block (consumed s [c] (if c =? r_newline then 1 else 0)))).
        { apply IH; auto. rewrite R1. simpl in L. lia. }
        match goal with
        | |- _ = Ok (tt, ?X) =>
            replace X with (after_block (consumed s [c] (if c =? r_newline then 1 else 0)))
        end.
        2:{ unfold after_block. rewrite R1. destruct (block_span r) as [pre closed].
            rewrite consumed_consumed, newlines_cons. reflexivity. }
        rewrite <- K.
        destruct (c =? r_newline).
        -- rewrite (bind_ok _ _ _ _ _ (line_incr_spec s c r H E)).
           rewrite (bind_ok _ _ _ _ _ (advance_set_line s _ c r H E)).
           reflexivity.
        -- unfold ret at 1. unfold bind at 1.
           rewrite (bind_ok _ _ _ _ _ (advance_spec s c r H E)).
           rewrite (step1_consumed s c). reflexivity.
Qed.

Lemma blockComment_spec s :
  wf s -> blockComment s = Ok (tt, after_block s).
Proof.
  intros H. unfold blockComment. apply blockComment_fuel_spec; auto.
  unfold remaining. rewrite length_skipn. lia.
Qed.

(** ** The constructs of [scanToken] *)

Lemma wf_begin s : wf s -> wf (begin s).
Proof. unfold wf, begin, set_start; simpl. lia. Qed.

Lemma slice_lexeme s pre rest :
  wf s -> remaining s = pre ++ rest ->
  slice (source s) (current s) (current s + len pre) = Ok pre.
Proof.
  intros H E. pose proof (remaining_length s H) as L.
  rewrite E, len_app in L.
  pose proof (len_nonneg pre). pose proof (len_nonneg rest).
  pose proof (wf_current_nonneg s H).
  unfold slice.
  replace (0 <=? current s) with true by (symmetry; apply Z.leb_le; lia).
  replace (current s <=? current s + len pre) with true
    by (symmetry; apply Z.leb_le; lia).
  replace (current s + len pre <=? len (source s)) with true
    by (symmetry; apply Z.leb_le; lia).
  cbn [andb]. f_equal.
  unfold remaining in E. rewrite E.
  replace (Z.to_nat (current s + len pre - current s)) with (length pre)
    by (unfold len; lia).
  rewrite firstn_app, Nat.sub_diag, firstn_all. simpl. apply app_nil_r.
Qed.

Lemma slice_inner s a b rest :
  wf s -> remaining s = a ++ b ++ rest ->
  slice (source s) (current s + len a) (current s + len a + len b) = Ok b.
Proof.
  intros H E.
  assert (N : 0 <= 0 <= len a) by (pose proof (len_nonneg a); lia).
  pose proof (wf_consumed s a (b ++ rest) 0 H E N) as H1.
  pose proof (remaining_consumed s a (b ++ rest) 0 H E) as R1.
  exact (slice_lexeme _ b rest H1 R1).
Qed.

Lemma addToken_finish s pre rest nl t lit :
  wf s -> remaining s = pre ++ rest ->
  addTokenWithLiteral t lit (consumed (begin s) pre nl) =
  Ok (tt, finish s pre nl (Emit t lit)).
Proof.
  intros H E. unfold addTokenWithLiteral, bind, get, lift, modify.
  cbn [consumed begin set_start source start current].
  rewrite (slice_lexeme s pre rest H E). reflexivity.
Qed.

Lemma report_finish s pre nl e :
  lox_reportError e (consumed (begin s) pre nl) =
  Ok (tt, finish s pre nl (Report e)).
Proof. reflexivity. Qed.

Lemma remaining_begin_consumed s pre rest nl :
  wf s -> remaining s = pre ++ rest ->
  remaining (consumed (begin s) pre nl) = rest.
Proof.
  intros H E. apply (remaining_consumed (begin s)); auto using wf_begin.
Qed.

Lemma wf_begin_consumed s pre rest nl :
  wf s -> remaining s = pre ++ rest -> 0 <= nl <= len pre ->
  wf (consumed (begin s) pre nl).
Proof.
  intros H E N. apply (wf_consumed (begin s) pre rest); auto using wf_begin.
Qed.

Lemma isDigit_0 : isDigit 0 = false.
Proof. reflexivity. Qed.

Lemma isAlphaNumeric_0 : isAlphaNumeric 0 = false.
Proof. reflexivity. Qed.

Lemma identifier_spec s c r :
  wf s -> remaining s = c :: r ->
  identifier (consumed (begin s) [c] 0) =
  Ok (tt, finish s (identifier_text c r) 0
            (Emit (identifier_type (identifier_text c r)) LNil)).
Proof.
  intros H E. unfold identifier.
  assert (N1 : 0 <= 0 <= len [c]) by (rewrite len_cons, len_nil; lia).
  pose proof (wf_begin_consumed s [c] r 0 H E N1) as H1.
  pose proof (remaining_begin_consumed s [c] r 0 H E) as R1.
  rewrite (bind_ok _ _ _ _ _ (while_peek_advance _ _ isAlphaNumeric_0 H1)).
  rewrite R1, consumed_consumed. cbn [app Z.add].
  pose proof (take_drop_while isAlphaNumeric r) as S.
  assert (E2 : remaining s = identifier_text c r ++ drop_while isAlphaNumeric r).
  { rewrite E. unfold identifier_text. simpl. congruence. }
  fold (identifier_text c r).
  unfold bind at 1, get at 1. unfold bind at 1, lift at 1.
  cbn [consumed begin set_start source start current].
  rewrite (slice_lexeme s _ _ H E2).
  unfold identifier_type, addToken.
  destruct (keywords_lookup (identifier_text c r));
    apply (addToken_finish s _ _ 0 _ LNil H E2).
Qed.

Lemma number_text_prefix c r :
  exists rest, c :: r = number_text c r ++ rest.
Proof.
  unfold number_text.
  pose proof (take_drop_while isDigit r) as S.
  destruct ((hd 0 (drop_while isDigit r) =? rn ".") &&
            isDigit (hd 0 (tl (drop_while isDigit r)))) eqn:B.
  - destruct (drop_while isDigit r) as [|d r1]; [discriminate|].
    cbn [hd tl]. exists (drop_while isDigit r1).
    rewrite <- S at 1. simpl. rewrite <- app_assoc. simpl.
    rewrite (take_drop_while isDigit r1). reflexivity.
  - exists (drop_while isDigit r). simpl. congruence.
Qed.

Lemma cond_fraction_spec s :
  wf s ->
  andM (c <- peek ;; ret (c =? rn ".")) (c <- peekNext ;; ret (isDigit c)) s =
  Ok ((hd 0 (remaining s) =? rn ".") && isDigit (hd 0 (tl (remaining s))), s).
Proof.
  intros H. unfold andM.
  erewrite bind_ok
    by (erewrite bind_ok by (apply peek_spec; exact H); reflexivity).
  destruct (hd 0 (remaining s) =? rn "."); cbn [andb].
  - rewrite (bind_ok _ _ _ _ _ (peekNext_spec s H)). reflexivity.
  - reflexivity.
Qed.

Lemma number_spec s c r :
  wf s -> remaining s = c :: r ->
  number (consumed (begin s) [c] 0) =
  Ok (tt, finish s (number_text c r) 0 (number_outcome (number_text c r))).
Proof.
  intros H E. unfold number.
  assert (N1 : 0 <= 0 <= len [c]) by (rewrite len_cons, len_nil; lia).
  pose proof (wf_begin_consumed s [c] r 0 H E N1) as H1.
  pose proof (remaining_begin_consumed s [c] r 0 H E) as R1.
  rewrite (bind_ok _ _ _ _ _ (while_peek_advance _ _ isDigit_0 H1)).
  rewrite R1, consumed_consumed. cbn [app Z.add].
  pose proof (take_drop_while isDigit r) as S.
  assert (E2 : remaining s = (c :: take_while isDigit r) ++ drop_while isDigit r).
  { rewrite E. simpl. congruence. }
  assert (N2 : 0 <= 0 <= len (c :: take_while isDigit r))
    by (pose proof (len_nonneg (c :: take_while isDigit r)); lia).
  pose proof (wf_begin_consumed s _ _ 0 H E2 N2) as H2.
  pose proof (remaining_begin_consumed s _ _ 0 H E2) as R2.
  rewrite (bind_ok _ _ _ _ _ (cond_fraction_spec _ H2)), R2.
  destruct (number_text_prefix c r) as [rest P].
  assert (E3 : remaining s = number_text c r ++ rest) by congruence.
  assert (F : forall s1, s1 = consumed (begin s) (number_text c r) 0 ->
    (s' <- get ;;
     text <- lift (slice (source s') (start s') (current s')) ;;
     match ParseFloat text with
     | (_, Some _) => lox_reportError ErrInvalidNumberLiteral
     | (value, None) => addTokenWithLiteral NUMBER (LNumber value)
     end) s1 =
    Ok (tt, finish s (number_text c r) 0 (number_outcome (number_text c r)))).
  { intros s1 ->. unfold bind at 1, get at 1. unfold bind at 1, lift at 1.
    cbn [consumed begin set_start source start current].
    rewrite (slice_lexeme s _ _ H E3).
    unfold number_outcome.
    destruct (ParseFloat (number_text c r)) as [value [e|]].
    - apply report_finish.
    - apply (addToken_finish s _ _ 0 _ _ H E3). }
  unfold number_text in *.
  destruct ((hd 0 (drop_while isDigit r) =? rn ".") &&
            isDigit (hd 0 (tl (drop_while isDigit r)))) eqn:B.
  - destruct (drop_while isDigit r) as [|d r1] eqn:D; [discriminate|].
    cbn [hd tl] in *. cbv beta iota. rewrite bind_assoc.
    rewrite (bind_ok _ _ _ _ _ (advance_spec _ d r1 H2 R2)).
    pose proof (wf_step1 _ _ _ H2 R2) as H3.
    pose proof (remaining_step1 _ _ _ H2 R2) as R3.
    rewrite (bind_ok _ _ _ _ _ (while_peek_advance _ _ isDigit_0 H3)).
    rewrite R3. apply F.
    rewrite (step1_consumed _ d), !consumed_consumed.
    reflexivity.
  - cbv beta iota. rewrite bind_ret. apply F. reflexivity.
Qed.

Lemma string_spec s c r :
  wf s -> remaining s = c :: r ->
  string_ (consumed (begin s) [c] 0) =
  Ok (tt, finish s (string_lexeme c r) (newlines (take_while not_quote r))
            (string_outcome r)).
Proof.
  intros H E. unfold string_.
  assert (N1 : 0 <= 0 <= len [c]) by (rewrite len_cons, len_nil; lia).
  pose proof (wf_begin_consumed s [c] r 0 H E N1) as H1.
  pose proof (remaining_begin_consumed s [c] r 0 H E) as R1.
  rewrite (bind_ok _ _ _ _ _ (while_string _ H1)).
  rewrite R1, consumed_consumed. cbn [app Z.add].
  fold not_quote.
  pose proof (take_drop_while not_quote r) as S.
  set (body := take_while not_quote r) in *.
  assert (E2 : remaining s = (c :: body) ++ drop_while not_quote r).
  { rewrite E. simpl. congruence. }
  assert (N2 : 0 <= newlines body <= len (c :: body)).
  { pose proof (newlines_bounds body). rewrite len_cons. lia. }
  pose proof (wf_begin_consumed s _ _ _ H E2 N2) as H2.
  pose proof (remaining_begin_consumed s _ _ (newlines body) H E2) as R2.
  rewrite (bind_ok _ _ _ _ _ (isAtEnd_spec _ H2)), R2.
  unfold string_lexeme, string_outcome. fold body.
  destruct (drop_while not_quote r) as [|q r1] eqn:D.
  - apply report_finish.
  - rewrite (bind_ok _ _ _ _ _ (advance_spec _ q r1 H2 R2)).
    rewrite (step1_consumed _ q), consumed_consumed.
    replace (newlines body + 0) with (newlines body) by lia.
    assert (E3 : remaining s = (c :: body ++ [q]) ++ r1).
    { rewrite E2. simpl. rewrite <- app_assoc. reflexivity. }
    unfold bind at 1, get at 1. unfold bind at 1, lift at 1.
    cbn [consumed begin set_start source start current].
    assert (V : slice (source s) (int_add (current s) 1)
                  (int_sub (current s + len ((c :: body) ++ [q])) 1) = Ok body).
    { pose proof (remaining_length s H) as L. rewrite E3 in L.
      pose proof (len_nonneg body). pose proof (len_nonneg r1).
      pose proof (wf_current_nonneg s H).
      assert (WI : int_max = 9223372036854775807) by reflexivity.
      assert (WJ : int_min = -9223372036854775808) by reflexivity.
      unfold wf in H.
      rewrite !len_app, !len_cons, ?len_app, ?len_cons, ?len_nil in *.
      rewrite int_add_small by lia. rewrite int_sub_small by lia.
      assert (E4 : remaining s = [c] ++ body ++ (q :: r1)).
      { rewrite E2. reflexivity. }
      pose proof (slice_inner s [c] body (q :: r1)) as SI.
      rewrite len_cons, len_nil in SI.
      replace (current s + (1 + len body + (1 + 0)) - 1)
        with (current s + (1 + 0) + len body) by lia.
      apply SI; auto. }
    rewrite V.
    apply (addToken_finish s _ _ _ _ _ H E3).
Qed.

(** ** The dispatch of [scanToken] *)

Lemma addToken_single s c r t :
  wf s -> remaining s = c :: r ->
  addToken t (consumed (begin s) [c] 0) = Ok (tt, finish s [c] 0 (Emit t LNil)).
Proof.
  intros H E. apply (addToken_finish s [c] r 0 t LNil H E).
Qed.

Lemma match_consumed s c r x :
  wf s -> remaining s = c :: r ->
  match_ x (consumed (begin s) [c] 0) =
  if next_is x r then Ok (true, consumed (begin s) [c; x] 0)
  else Ok (false, consumed (begin s) [c] 0).
Proof.
  intros H E.
  assert (N1 : 0 <= 0 <= len [c]) by (rewrite len_cons, len_nil; lia).
  pose proof (wf_begin_consumed s [c] r 0 H E N1) as H1.
  pose proof (remaining_begin_consumed s [c] r 0 H E) as R1.
  rewrite (match_spec _ x H1), R1.
  destruct r as [|d r']; simpl; auto.
  destruct (d =? x) eqn:D; auto.
  apply Z.eqb_eq in D. subst d.
  rewrite (step1_consumed _ x), consumed_consumed. reflexivity.
Qed.

Lemma next_is_cons x r :
  next_is x r = true -> exists r', r = x :: r'.
Proof.
  destruct r as [|d r']; simpl; [discriminate|].
  intros D. apply Z.eqb_eq in D. subst. eauto.
Qed.

Lemma operator_spec s c r two one :
  wf s -> remaining s = c :: r ->
  (b <- match_ (rn "=") ;; if b then addToken two else addToken one)
    (consumed (begin s) [c] 0) =
  Ok (tt, finish_lexed s (lex_operator c r two one)).
Proof.
  intros H E. unfold bind. rewrite (match_consumed s c r _ H E).
  unfold lex_operator. destruct (next_is (rn "=") r) eqn:N.
  - destruct (next_is_cons _ _ N) as [r' ->].
    apply (addToken_finish s [c; rn "="] r' 0 _ LNil H E).
  - apply (addToken_single s c r _ H E).
Qed.

Lemma slash_spec s c r :
  wf s -> remaining s = c :: r ->
  (b <- match_ (rn "/") ;;
   if b then
     while (andM (c <- peek ;; ret (negb (c =? r_newline)))
                 (e <- isAtEnd ;; ret (negb e)))
           (advance ;; ret tt)
   else
     b' <- match_ (rn "*") ;;
     if b' then blockComment else addToken SLASH)
    (consumed (begin s) [c] 0) =
  Ok (tt, finish_lexed s (lex_slash c r)).
Proof.
  intros H E. unfold bind at 1. rewrite (match_consumed s c r _ H E).
  unfold lex_slash. destruct (next_is (rn "/") r) eqn:N.
  - destruct (next_is_cons _ _ N) as [r' ->]. cbn [tl].
    assert (E2 : remaining s = [c; rn "/"] ++ r') by exact E.
    assert (N2 : 0 <= 0 <= len [c; rn "/"]) by (unfold len; simpl; lia).
    pose proof (wf_begin_consumed s _ _ 0 H E2 N2) as H2.
    pose proof (remaining_begin_consumed s _ _ 0 H E2) as R2.
    rewrite (while_line_comment _ H2), R2, consumed_consumed.
    reflexivity.
  - unfold bind at 1. rewrite (match_consumed s c r _ H E).
    destruct (next_is (rn "*") r) eqn:N'.
    + destruct (next_is_cons _ _ N') as [r' ->]. cbn [tl].
      assert (E2 : remaining s = [c; rn "*"] ++ r') by exact E.
      assert (N2 : 0 <= 0 <= len [c; rn "*"]) by (unfold len; simpl; lia).
      pose proof (wf_begin_consumed s _ _ 0 H E2 N2) as H2.
      pose proof (remaining_begin_consumed s _ _ 0 H E2) as R2.
      rewrite (blockComment_spec _ H2). unfold after_block. rewrite R2.
      destruct (block_span r') as [pre closed].
      rewrite consumed_consumed. destruct closed; reflexivity.
    + apply (addToken_single s c r _ H E).
Qed.

(** [scanToken] reads exactly the lexeme [lex] describes. *)
Lemma scanToken_spec s c r :
  wf s -> remaining s = c :: r ->
  scanToken (begin s) = Ok (tt, finish_lexed s (lex c r)).
Proof.
  intros H E. unfold scanToken.
  pose proof (wf_begin s H) as Hb.
  rewrite (bind_ok _ _ _ _ _ (advance_spec (begin s) c r Hb E)).
  rewrite (step1_consumed _ c). unfold lex.
  repeat match goal with
  | |- (if ?b then _ else _) _ = Ok (tt, finish_lexed s (if ?b then _ else _)) =>
      destruct b;
      [ first [ apply (addToken_single s c r _ H E)
              | apply (operator_spec s c r _ _ H E)
              | apply (slash_spec s c r H E)
              | apply (string_spec s c r H E)
              | apply (number_spec s c r H E)
              | apply (identifier_spec s c r H E)
              | idtac ] | ]
  end.
  - reflexivity.
  - pose proof (remaining_cons_lt s c r H E) as L.
    unfold line_incr, modify.
    cbn [consumed begin set_start line].
    rewrite int_add_small.
    + unfold finish_lexed, finish, consumed, set_line; simpl.
      do 3 f_equal. lia.
    + unfold wf in H. rewrite int_min_val. rewrite int_max_val in *. lia.
  - reflexivity.
Qed.

(** ** The lexeme read is a prefix of the input *)

Lemma newlines_none (p : rune -> bool) l :
  p r_newline = false -> Forall (fun c => p c = true) l -> newlines l = 0.
Proof.
  intros P. induction 1 as [|c l Hc Hl IH]; [reflexivity|].
  rewrite newlines_cons, IH.
  destruct (c =? r_newline) eqn:E; auto.
  apply Z.eqb_eq in E. congruence.
Qed.

Lemma newlines_take_while (p : rune -> bool) l :
  p r_newline = false -> newlines (take_while p l) = 0.
Proof. intros P. apply (newlines_none p); auto using take_while_all. Qed.

Lemma drop_while_not_quote_head q r l :
  drop_while not_quote l = q :: r -> q = r_quote.
Proof.
  induction l as [|c l IH]; simpl; [discriminate|].
  destruct (not_quote c) eqn:E; auto.
  intros Q. inversion Q; subst. unfold not_quote in E.
  apply negb_false_iff, Z.eqb_eq in E. exact E.
Qed.

Lemma lexed_ok_single c r out :
  (c =? r_newline) = false -> lexed_ok c r ([c], 0, out).
Proof.
  intros N. split; [|split].
  - exists r. reflexivity.
  - discriminate.
  - rewrite newlines_cons, N, newlines_nil. reflexivity.
Qed.

Lemma lexed_ok_operator c r two one :
  (c =? r_newline) = false -> lexed_ok c r (lex_operator c r two one).
Proof.
  intros N. unfold lex_operator. destruct (next_is (rn "=") r) eqn:E.
  - destruct (next_is_cons _ _ E) as [r' ->]. split; [|split].
    + exists r'. reflexivity.
    + discriminate.
    + rewrite newlines_cons, N. reflexivity.
  - apply lexed_ok_single; auto.
Qed.

Lemma lexed_ok_slash c r :
  (c =? r_newline) = false -> lexed_ok c r (lex_slash c r).
Proof.
  intros N. unfold lex_slash. destruct (next_is (rn "/") r) eqn:E.
  - destruct (next_is_cons _ _ E) as [r' ->]. cbn [tl]. split; [|split].
    + exists (drop_while not_newline r'). simpl.
      rewrite (take_drop_while not_newline r'). reflexivity.
    + discriminate.
    + rewrite !newlines_cons, N, newlines_take_while by reflexivity.
      reflexivity.
  - destruct (next_is (rn "*") r) eqn:E'.
    + destruct (next_is_cons _ _ E') as [r' ->]. cbn [tl].
      destruct (block_span_prefix r') as [rest P].
      destruct (block_span r') as [pre closed]. simpl in P.
      split; [|split].
      * exists rest. simpl. congruence.
      * discriminate.
      * rewrite !newlines_cons, N. reflexivity.
    + apply lexed_ok_single; auto.
Qed.

Lemma lexed_ok_string r :
  lexed_ok r_quote r
    (string_lexeme r_quote r, newlines (take_while not_quote r), string_outcome r).
Proof.
  unfold string_lexeme. pose proof (take_drop_while not_quote r) as S.
  destruct (drop_while not_quote r) as [|q r1] eqn:D.
  - split; [|split].
    + exists []. rewrite app_nil_r in *. congruence.
    + discriminate.
    + rewrite newlines_cons. reflexivity.
  - pose proof (drop_while_not_quote_head _ _ _ D). subst q.
    split; [|split].
    + exists r1. simpl. rewrite <- app_assoc. simpl. congruence.
    + discriminate.
    + rewrite newlines_cons, newlines_app. simpl.
      change (newlines [r_quote]) with 0. lia.
Qed.

Lemma number_text_newlines c r :
  isDigit c = true -> newlines (number_text c r) = 0.
Proof.
  intros C. unfold number_text.
  assert (Q : (c =? r_newline) = false).
  { destruct (c =? r_newline) eqn:E; auto. apply Z.eqb_eq in E. subst.
    discriminate. }
  destruct ((hd 0 (drop_while isDigit r) =? rn ".") && _) eqn:B.
  - apply andb_true_iff in B. destruct B as [B _]. apply Z.eqb_eq in B.
    rewrite B, newlines_cons, Q, newlines_app, newlines_cons.
    rewrite !newlines_take_while by reflexivity. reflexivity.
  - rewrite newlines_cons, Q, newlines_take_while by reflexivity. reflexivity.
Qed.

Lemma lexed_ok_number c r out :
  isDigit c = true -> lexed_ok c r (number_text c r, 0, out).
Proof.
  intros C. split; [|split].
  - apply number_text_prefix.
  - unfold number_text. destruct (_ && _); discriminate.
  - symmetry. apply number_text_newlines; auto.
Qed.

Lemma lexed_ok_identifier c r out :
  (c =? r_newline) = false -> lexed_ok c r (identifier_text c r, 0, out).
Proof.
  intros N. unfold identifier_text. split; [|split].
  - exists (drop_while isAlphaNumeric r).
    simpl. rewrite (take_drop_while isAlphaNumeric r). reflexivity.
  - discriminate.
  - rewrite newlines_cons, N, newlines_take_while by reflexivity. reflexivity.
Qed.

Lemma lex_ok c r : lexed_ok c r (lex c r).
Proof.
  unfold lex.
  repeat match goal with
  | |- lexed_ok _ _ (if (?a =? ?b) then _ else _) =>
      let E := fresh "E" in
      destruct (a =? b) eqn:E;
      [ apply Z.eqb_eq in E; subst a;
        first [ apply lexed_ok_single; reflexivity
              | apply lexed_ok_operator; reflexivity
              | apply lexed_ok_slash; reflexivity
              | apply lexed_ok_string
              | idtac ] | ]
  end.
  destruct ((c =? rn " ") || (c =? r_return) || (c =? r_tab)) eqn:W.
  - apply lexed_ok_single.
    destruct (c =? r_newline) eqn:N; auto.
    apply Z.eqb_eq in N. subst c. discriminate.
  - destruct (c =? r_newline) eqn:N.
    + apply Z.eqb_eq in N. subst c.
      split; [|split]; [exists r; reflexivity | discriminate | reflexivity].
    + destruct (c =? r_quote) eqn:Q.
      * apply Z.eqb_eq in Q. subst c. apply lexed_ok_string.
      * destruct (isDigit c) eqn:D; [apply lexed_ok_number; auto|].
        destruct (isAlpha c); [apply lexed_ok_identifier; auto|].
        apply lexed_ok_single; auto.
Qed.

(** ** The loop of [ScanTokens] *)

Lemma loop_cond_spec s :
  wf s ->
  loop_cond s = Ok (match remaining s with [] => false | _ :: _ => true end, s).
Proof.
  intros H. unfold loop_cond. rewrite (bind_ok _ _ _ _ _ (isAtEnd_spec s H)).
  destruct (remaining s); reflexivity.
Qed.

Lemma loop_body_spec s c r :
  wf s -> remaining s = c :: r ->
  loop_body s = Ok (tt, finish_lexed s (lex c r)).
Proof. intros H E. apply (scanToken_spec s c r H E). Qed.

Lemma finish_fields s pre nl out :
  source (finish s pre nl out) = source s /\
  start (finish s pre nl out) = current s /\
  current (finish s pre nl out) = current s + len pre /\
  line (finish s pre nl out) = line s + nl.
Proof. destruct out; repeat split. Qed.

Lemma remaining_finish s pre rest nl out :
  wf s -> remaining s = pre ++ rest -> remaining (finish s pre nl out) = rest.
Proof.
  intros H E. rewrite <- (remaining_begin_consumed s pre rest nl H E).
  destruct out; reflexivity.
Qed.

Lemma wf_finish s pre rest nl out :
  wf s -> remaining s = pre ++ rest -> 0 <= nl <= len pre ->
  wf (finish s pre nl out).
Proof.
  intros H E N. pose proof (wf_begin_consumed s pre rest nl H E N) as W.
  destruct out; exact W.
Qed.

(** One iteration from a well-formed state: what it reads and where it
    leaves the scanner. *)
Lemma loop_body_total s c r :
  wf s -> remaining s = c :: r ->
  exists pre nl out rest,
    lex c r = (pre, nl, out) /\
    c :: r = pre ++ rest /\ pre <> [] /\ nl = newlines pre /\
    loop_body s = Ok (tt, finish s pre nl out) /\
    wf (finish s pre nl out) /\
    remaining (finish s pre nl out) = rest.
Proof.
  intros H E. pose proof (lex_ok c r) as K.
  pose proof (loop_body_spec s c r H E) as B.
  destruct (lex c r) as [[pre nl] out]. destruct K as ([rest P] & Q & N).
  exists pre, nl, out, rest. rewrite P in E.
  split; [reflexivity|]. split; [exact P|]. split; [exact Q|].
  split; [exact N|]. split; [exact B|]. split.
  - apply (wf_finish s pre rest); auto. subst nl. apply newlines_bounds.
  - apply remaining_finish; auto.
Qed.

Lemma loop_fuel : forall fuel s,
  wf s -> (length (remaining s) <= fuel)%nat ->
  exists s',
    while_ fuel loop_cond loop_body s = Ok (tt, s') /\
    iterates s s' /\ remaining s' = [] /\ wf s'.
Proof.
  induction fuel as [|n IH]; intros s H L.
  - destruct (remaining s) as [|c r] eqn:E; [|simpl in L; lia].
    exists s. simpl. rewrite (bind_ok _ _ _ _ _ (loop_cond_spec s H)), E.
    split; [reflexivity|]. split; [constructor|]. split; [first [reflexivity | exact E]|exact H].
  - simpl. pose proof (loop_cond_spec s H) as C.
    rewrite (bind_ok _ _ _ _ _ C).
    destruct (remaining s) as [|c r] eqn:E.
    + exists s. split; [reflexivity|]. split; [constructor|].
      split; [first [reflexivity | exact E]|exact H].
    + destruct (loop_body_total s c r H E)
        as (pre & nl & out & rest & _ & P & Q & _ & B & W & R).
      rewrite (bind_ok _ _ _ _ _ B).
      destruct (IH (finish s pre nl out) W) as (s' & A1 & A2 & A3 & A4).
      * rewrite R. assert (length (c :: r) = length (pre ++ rest)) by congruence.
        rewrite length_app in *. simpl in *.
        destruct pre; [congruence|]. simpl in *. lia.
      * exists s'. split; [exact A1|]. split; [|split; assumption].
        eapply iterates_step; eauto.
Qed.

Lemma wf_NewScanner src l : len src < int_max -> wf (NewScanner src l).
Proof.
  intros H. pose proof (len_nonneg src).
  unfold wf, NewScanner. cbn [source start current line]. lia.
Qed.

(** [ScanTokens] returns: the loop ends at the end of the source, and the
    tokens of the last state are returned with the end token after
    them. *)
Lemma ScanTokens_total s :
  wf s ->
  exists s',
    iterates s s' /\ remaining s' = [] /\ wf s' /\
    ScanTokens s =
    Ok (tokens s' ++ [eof_token (line s')],
        set_tokens s' (tokens s' ++ [eof_token (line s')])).
Proof.
  intros H.
  destruct (loop_fuel (length (source s)) s H) as (s' & A1 & A2 & A3 & A4).
  { unfold remaining. rewrite length_skipn. lia. }
  exists s'. split; [exact A2|]. split; [exact A3|]. split; [exact A4|].
  unfold ScanTokens.
  change (while (e <- isAtEnd;; ret (negb e))
                (modify (fun s0 => set_start s0 (current s0));; scanToken))
    with (while loop_cond loop_body).
  unfold while at 1. unfold bind at 1. rewrite A1. reflexivity.
Qed.

(** ** Invariants of the loop *)

Lemma iterates_step_inv s s1 :
  wf s -> loop_cond s = Ok (true, s) -> loop_body s = Ok (tt, s1) ->
  exists c r pre nl out rest,
    remaining s = c :: r /\ lex c r = (pre, nl, out) /\
    c :: r = pre ++ rest /\ pre <> [] /\ nl = newlines pre /\
    s1 = finish s pre nl out /\ wf s1 /\ remaining s1 = rest.
Proof.
  intros H C B. rewrite (loop_cond_spec s H) in C.
  destruct (remaining s) as [|c r] eqn:E; [discriminate|].
  destruct (loop_body_total s c r H E)
    as (pre & nl & out & rest & L & P & Q & N & B' & W & R).
  rewrite B' in B. inversion B; subst s1.
  exists c, r, pre, nl, out, rest. repeat (split; [assumption || reflexivity|]).
  assumption.
Qed.

(** A property kept by the reading of every lexeme holds in every state
    of the loop. *)
Lemma iterates_invariant (P : Scanner -> Prop) :
  (forall s c r pre nl out rest,
      wf s -> P s -> remaining s = c :: r -> lex c r = (pre, nl, out) ->
      c :: r = pre ++ rest -> nl = newlines pre ->
      P (finish s pre nl out)) ->
  forall s s', iterates s s' -> wf s -> P s -> P s' /\ wf s'.
Proof.
  intros Step s s' I. induction I as [s|s s1 s2 C B I IH]; intros H Ps.
  - auto.
  - destruct (iterates_step_inv s s1 H C B)
      as (c & r & pre & nl & out & rest & E & L & Q & _ & N & -> & W & _).
    apply IH; auto. eapply Step; eauto.
Qed.

Lemma iterates_wf s s' : iterates s s' -> wf s -> wf s'.
Proof.
  intros I H.
  destruct (iterates_invariant (fun _ => True)) with (s := s) (s' := s'); auto.
Qed.

Lemma iterates_trans s1 s2 s3 :
  iterates s1 s2 -> iterates s2 s3 -> iterates s1 s3.
Proof.
  induction 1; auto. intros. eapply iterates_step; eauto.
Qed.

(** The loop is deterministic: two runs to the end of the source end in
    the same state. *)
Lemma iterates_end_unique s a b :
  wf s -> iterates s a -> iterates s b ->
  remaining a = [] -> remaining b = [] -> a = b.
Proof.
  intros H Ia. revert b H.
  induction Ia as [s|s s1 s2 C B I IH]; intros b H Ib Ea Eb.
  - destruct Ib as [|s s1 s2 C B I]; auto.
    rewrite (loop_cond_spec s H), Ea in C. discriminate.
  - destruct Ib as [|s s1' s2' C' B' I'].
    + rewrite (loop_cond_spec s H), Eb in C. discriminate.
    + assert (s1' = s1) by congruence. subst s1'.
      apply IH; auto.
      destruct (iterates_step_inv s s1 H C B)
        as (_ & _ & _ & _ & _ & _ & _ & _ & _ & _ & _ & _ & W & _).
      exact W.
Qed.

(** From any state of the loop, [ScanTokens] ends as it does from the
    state the loop started in. *)
Lemma ScanTokens_from s0 s :
  wf s0 -> iterates s0 s ->
  exists s',
    iterates s s' /\ remaining s' = [] /\ wf s' /\
    ScanTokens s0 =
    Ok (tokens s' ++ [eof_token (line s')],
        set_tokens s' (tokens s' ++ [eof_token (line s')])).
Proof.
  intros H I.
  destruct (ScanTokens_total s0 H) as (a & Ia & Ea & Wa & Ra).
  destruct (ScanTokens_total s (iterates_wf _ _ I H)) as (b & Ib & Eb & Wb & _).
  assert (a = b).
  { apply (iterates_end_unique s0); auto. exact (iterates_trans _ _ _ I Ib). }
  subst b. exists a.
  split; [exact Ib|]. split; [exact Ea|]. split; [exact Wa|exact Ra].
Qed.

Lemma identifier_type_not_eof text : identifier_type text <> EOF.
Proof.
  unfold identifier_type, keywords_lookup.
  destruct (find _ keywords) as [kv|] eqn:F; [|discriminate].
  apply find_some in F. destruct F as [I _].
  unfold keywords in I. simpl in I.
  repeat (destruct I as [<-|I]; [discriminate|]). contradiction.
Qed.

Lemma lex_emit_not_eof c r pre nl t lit :
  lex c r = (pre, nl, Emit t lit) -> t <> EOF.
Proof.
  unfold lex, lex_operator, lex_slash, string_outcome, number_outcome.
  repeat match goal with
  | |- context [if ?b then _ else _] => destruct b
  | |- context [let '(_, _) := ?x in _] => destruct x
  | |- context [match ?x with Some _ => _ | None => _ end] => destruct x
  | |- context [match ?x with [] => _ | _ :: _ => _ end] => destruct x
  end;
  intros E; inversion E; subst; try discriminate.
  apply identifier_type_not_eof.
Qed.

Lemma tokens_finish s pre nl out :
  tokens (finish s pre nl out) =
  tokens s ++
  match out with
  | Emit t lit =>
      [ {| TokenType_ := t; Lexeme := pre; Literal_ := lit;
           Line := line s + nl |} ]
  | _ => []
  end.
Proof. destruct out; simpl; auto using app_nil_r. Qed.

Lemma lox_finish s pre nl out :
  lox (finish s pre nl out) =
  match out with
  | Report e => reportError (lox s) (line s + nl) e
  | _ => lox s
  end.
Proof. destruct out; reflexivity. Qed.

Lemma iterates_no_eof s s' :
  iterates s s' -> wf s -> no_eof (tokens s) -> no_eof (tokens s').
Proof.
  intros I H P.
  apply (iterates_invariant (fun s => no_eof (tokens s))) with (s := s); auto.
  clear. intros s c r pre nl out rest _ P _ L _ _.
  rewrite tokens_finish. apply Forall_app. split; auto.
  destruct out; constructor; auto. simpl.
  eapply lex_emit_not_eof; eauto.
Qed.

Lemma StronglySorted_snoc l x :
  StronglySorted Z.le l -> Forall (fun a => a <= x) l ->
  StronglySorted Z.le (l ++ [x]).
Proof.
  induction 1 as [|a l S IH F]; intros B; simpl.
  - constructor; constructor.
  - inversion B; subst. constructor; auto.
    apply Forall_app. split; auto.
Qed.

Lemma iterates_lines_sorted s s' :
  iterates s s' -> wf s -> lines_sorted s -> lines_sorted s'.
Proof.
  intros I H P.
  apply (iterates_invariant lines_sorted) with (s := s); auto.
  clear. intros s c r pre nl out rest _ [S B] _ _ _ N.
  pose proof (newlines_bounds pre) as NB.
  assert (B' : Forall (fun t => Line t <= line s + nl) (tokens s)).
  { eapply Forall_impl; [|exact B]. simpl. intros; lia. }
  unfold lines_sorted. rewrite tokens_finish.
  destruct (finish_fields s pre nl out) as (_ & _ & _ & ->).
  destruct out; rewrite ?app_nil_r; auto.
  split.
  - rewrite map_app. apply StronglySorted_snoc; auto.
    apply Forall_map. exact B'.
  - apply Forall_app. split; auto. constructor; simpl; auto. lia.
Qed.

(** * Properties of the scanner *)

(** ** The returned sequence *)

Lemma scan_total src :
  len src < int_max ->
  exists s',
    iterates (NewScanner src lox0) s' /\ remaining s' = [] /\ wf s' /\
    scan src =
    Ok (tokens s' ++ [eof_token (line s')],
        set_tokens s' (tokens s' ++ [eof_token (line s')])).
Proof.
  intros H. apply ScanTokens_total. apply wf_NewScanner; auto.
Qed.

(** C1: for every source text [ScanTokens] returns; the tokens returned
    are not empty, the last one is an EOF token with an empty lexeme and
    no token before it has type EOF; scanning the empty text returns
    exactly one EOF token, on line 1. *)
Theorem scan_ends_with_single_eof (src : list rune) (H : len src < int_max) :
  (exists toks l s',
      scan src = Ok (toks ++ [eof_token l], s') /\
      no_eof toks /\
      TokenType_ (eof_token l) = EOF /\ Lexeme (eof_token l) = []) /\
  (exists s', scan [] = Ok ([eof_token 1], s')).
Proof.
  split.
  - destruct (scan_total src H) as (s' & I & _ & _ & R).
    exists (tokens s'), (line s'), (set_tokens s' (tokens s' ++ [eof_token (line s')])).
    split; [exact R|]. split; [|split; reflexivity].
    apply (iterates_no_eof _ _ I).
    + apply wf_NewScanner; auto.
    + constructor.
  - eexists. vm_compute. reflexivity.
Qed.

Lemma scan_ends_with_single_eof_witness :
  (exists toks l s',
      scan (runes "1 + 2.5") = Ok (toks ++ [eof_token l], s') /\
      no_eof toks /\
      TokenType_ (eof_token l) = EOF /\ Lexeme (eof_token l) = []) /\
  (exists s', scan [] = Ok ([eof_token 1], s')).
Proof.
  apply (scan_ends_with_single_eof (runes "1 + 2.5")). reflexivity.
Defined.

(** C8: in the tokens returned, read in the order they were added, the
    line numbers never decrease. *)
Theorem scan_lines_nondecreasing (src : list rune) (H : len src < int_max) :
  exists toks s',
    scan src = Ok (toks, s') /\ StronglySorted Z.le (map Line toks).
Proof.
  destruct (scan_total src H) as (s' & I & _ & _ & R).
  eexists _, _. split; [exact R|].
  destruct (iterates_lines_sorted _ _ I) as [S B].
  - apply wf_NewScanner; auto.
  - split; constructor.
  - rewrite map_app. apply StronglySorted_snoc; auto.
    apply Forall_map. exact B.
Qed.

Lemma scan_lines_nondecreasing_witness :
  exists toks s',
    scan (runes "(a)") = Ok (toks, s') /\ StronglySorted Z.le (map Line toks).
Proof.
  apply (scan_lines_nondecreasing (runes "(a)")). reflexivity.
Defined.

Lemma advance_panics s :
  advance s = Panic <-> ~ (0 <= current s < len (source s)).
Proof.
  unfold advance, bind, get, lift, modify, ret, index.
  destruct (0 <=? current s) eqn:A; destruct (current s <? len (source s)) eqn:B;
    cbn [andb].
  - apply Z.leb_le in A. apply Z.ltb_lt in B.
    destruct (nth_error (source s) (Z.to_nat (current s))) eqn:N.
    + split; [discriminate | intros C; exfalso; apply C; lia].
    + apply nth_error_None in N. unfold len in B. lia.
  - apply Z.ltb_ge in B. split; auto. intros _; lia.
  - apply Z.leb_gt in A. split; auto. intros _; lia.
  - apply Z.leb_gt in A. split; auto. intros _; lia.
Qed.

Lemma peek_at_end s : len (source s) <= current s -> peek s = Ok (0, s).
Proof.
  intros H. unfold peek, isAtEnd, bind, get, ret.
  apply Z.leb_le in H. rewrite H. reflexivity.
Qed.

Lemma peekNext_at_end s :
  len (source s) <= int_add (current s) 1 -> peekNext s = Ok (0, s).
Proof.
  intros H. unfold peekNext, bind, get, ret.
  apply Z.leb_le in H. rewrite H. reflexivity.
Qed.

(** C9: no read of the source is out of bounds.  An index expression out
    of range is a panic, [advance] panics exactly when the cursor is not
    below the length of the source, and [ScanTokens] never panics; [peek]
    and [peekNext] give the zero rune at the end of the source instead of
    reading. *)
Theorem scan_reads_in_bounds (src : list rune) (H : len src < int_max) :
  (exists r, scan src = Ok r) /\
  (forall s, advance s = Panic <-> ~ (0 <= current s < len (source s))) /\
  (forall s, len (source s) <= current s -> peek s = Ok (0, s)) /\
  (forall s, len (source s) <= int_add (current s) 1 ->
             peekNext s = Ok (0, s)).
Proof.
  split; [|split; [|split]].
  - destruct (scan_total src H) as (s' & _ & _ & _ & R). eexists; exact R.
  - exact advance_panics.
  - exact peek_at_end.
  - exact peekNext_at_end.
Qed.

Lemma scan_reads_in_bounds_witness :
  (exists r, scan (runes "1.") = Ok r) /\
  (forall s, advance s = Panic <-> ~ (0 <= current s < len (source s))) /\
  (forall s, len (source s) <= current s -> peek s = Ok (0, s)) /\
  (forall s, len (source s) <= int_add (current s) 1 ->
             peekNext s = Ok (0, s)).
Proof.
  apply (scan_reads_in_bounds (runes "1.")). reflexivity.
Defined.

(** ** Steps of the loop *)

Lemma loop_body_lex s c r pre nl out rest :
  wf s -> remaining s = c :: r ->
  lex c r = (pre, nl, out) -> c :: r = pre ++ rest ->
  loop_body s = Ok (tt, finish s pre nl out) /\
  wf (finish s pre nl out) /\
  remaining (finish s pre nl out) = rest.
Proof.
  intros H E L P.
  destruct (loop_body_total s c r H E)
    as (pre' & nl' & out' & rest' & L' & P' & _ & _ & B & W & R).
  rewrite L in L'. inversion L'; subst pre' nl' out'.
  rewrite P in P'. apply app_inv_head in P'. subst rest'. auto.
Qed.

Lemma iterates_lex s c r pre nl out s' :
  wf s -> remaining s = c :: r -> lex c r = (pre, nl, out) ->
  iterates (finish s pre nl out) s' -> iterates s s'.
Proof.
  intros H E L I.
  pose proof (loop_body_spec s c r H E) as B. rewrite L in B.
  apply (iterates_step s (finish s pre nl out) s'); auto.
  rewrite (loop_cond_spec s H), E. reflexivity.
Qed.

Lemma ScanTokens_end s0 s :
  wf s0 -> iterates s0 s -> remaining s = [] ->
  ScanTokens s0 =
  Ok (tokens s ++ [eof_token (line s)],
      set_tokens s (tokens s ++ [eof_token (line s)])).
Proof.
  intros H I E.
  destruct (ScanTokens_total s0 H) as (a & Ia & Ea & _ & Ra).
  rewrite (iterates_end_unique s0 s a H I Ia E Ea). exact Ra.
Qed.

(** ** Runes outside the grammar *)

Lemma lex_unrecognized c r :
  recognized c = false -> lex c r = ([c], 0, Report ErrUnexpectedCharacter).
Proof.
  unfold recognized. cbn [existsb]. intros U.
  repeat match type of U with
  | (_ || _) = false => apply orb_false_iff in U; destruct U as [? U]
  end.
  repeat match goal with
  | A : (_ || _) = false |- _ => apply orb_false_iff in A; destruct A as [? ?]
  end.
  unfold lex.
  repeat match goal with
  | A : ?b = false |- context [if ?b then _ else _] => rewrite A
  | A : ?b = false |- context [?b || _] => rewrite A; cbn [orb]
  end.
  reflexivity.
Qed.

Lemma non_ascii_unrecognized c : 128 <= c -> recognized c = false.
Proof.
  intros H. unfold recognized, isDigit, isAlpha. cbn [existsb].
  unfold rn, r_return, r_tab, r_newline, r_quote. simpl N_of_ascii.
  simpl Z.of_N.
  repeat match goal with
  | |- context [?a =? ?b] =>
      replace (a =? b) with false by (symmetry; apply Z.eqb_neq; lia)
  | |- context [?a <=? ?b] =>
      replace (a <=? b) with false by (symmetry; apply Z.leb_gt; lia)
  end.
  repeat rewrite ?andb_false_r, ?orb_false_r. reflexivity.
Qed.

Lemma unrecognized_step s c r :
  wf s -> remaining s = c :: r -> recognized c = false ->
  exists s1,
    loop_body s = Ok (tt, s1) /\ wf s1 /\
    tokens s1 = tokens s /\
    stderr (lox s1) = stderr (lox s) ++ [unexpected_at (line s)] /\
    line s1 = line s /\ remaining s1 = r.
Proof.
  intros H E U.
  destruct (loop_body_lex s c r [c] 0 (Report ErrUnexpectedCharacter) r H E)
    as (B & W & R); auto using lex_unrecognized.
  eexists. split; [exact B|]. split; [exact W|].
  rewrite tokens_finish, lox_finish, app_nil_r.
  destruct (finish_fields s [c] 0 (Report ErrUnexpectedCharacter))
    as (_ & _ & _ & ->).
  replace (line s + 0) with (line s) by lia. auto.
Qed.

Lemma unrecognized_run : forall l s,
  wf s -> remaining s = l -> Forall (fun c => recognized c = false) l ->
  exists s',
    iterates s s' /\ remaining s' = [] /\
    tokens s' = tokens s /\ line s' = line s /\
    stderr (lox s') =
    stderr (lox s) ++ repeat (unexpected_at (line s)) (length l).
Proof.
  induction l as [|c l IH]; intros s H E U.
  - exists s. split; [constructor|]. simpl. rewrite app_nil_r. auto.
  - inversion U as [|? ? Uc Ul]; subst.
    destruct (unrecognized_step s c l H E Uc) as (s1 & B & W & T & D & L & R).
    destruct (IH s1 W R Ul) as (s' & I & E' & T' & L' & D').
    exists s'. split; [|split; [exact E'|split; [congruence|split; [congruence|]]]].
    + apply (iterates_step s s1 s'); auto.
      rewrite (loop_cond_spec s H), E. reflexivity.
    + rewrite D', D, L. simpl. rewrite <- app_assoc. reflexivity.
Qed.

(** C10: every rune outside the grammar is reported by itself.  A source
    made of [n] such runes gives [n] reports of an unexpected character
    and no token but the final EOF; in any source, reading such a rune
    adds one report at the current line and no token, and reads that rune
    only.  The at sign and every rune that is not ASCII are such runes. *)
Theorem unexpected_characters_reported
    (src : list rune) (H : len src < int_max)
    (U : Forall (fun c => recognized c = false) src) :
  (exists s',
      scan src = Ok ([eof_token 1], s') /\
      stderr (lox s') = repeat (unexpected_at 1) (length src)) /\
  (forall s c r,
      wf s -> remaining s = c :: r -> recognized c = false ->
      exists s1,
        loop_body s = Ok (tt, s1) /\
        tokens s1 = tokens s /\
        stderr (lox s1) = stderr (lox s) ++ [unexpected_at (line s)] /\
        remaining s1 = r) /\
  recognized (rn "@") = false /\
  (forall c, 128 <= c -> recognized c = false).
Proof.
  split; [|split; [|split]].
  - pose proof (wf_NewScanner src lox0 H) as W.
    destruct (unrecognized_run src (NewScanner src lox0) W eq_refl U)
      as (s' & I & E & T & L & D).
    eexists. split.
    + unfold scan. rewrite (ScanTokens_end _ s' W I E), T, L. reflexivity.
    + simpl. exact D.
  - intros s c r W E Uc.
    destruct (unrecognized_step s c r W E Uc) as (s1 & B & _ & T & D & _ & R).
    exists s1. auto.
  - reflexivity.
  - exact non_ascii_unrecognized.
Qed.

Lemma unexpected_characters_reported_witness :
  (exists s',
      scan [rn "@"; rn "@"; 233] = Ok ([eof_token 1], s') /\
      stderr (lox s') = repeat (unexpected_at 1) 3) /\
  (forall s c r,
      wf s -> remaining s = c :: r -> recognized c = false ->
      exists s1,
        loop_body s = Ok (tt, s1) /\
        tokens s1 = tokens s /\
        stderr (lox s1) = stderr (lox s) ++ [unexpected_at (line s)] /\
        remaining s1 = r) /\
  recognized (rn "@") = false /\
  (forall c, 128 <= c -> recognized c = false).
Proof.
  apply (unexpected_characters_reported [rn "@"; rn "@"; 233]).
  - reflexivity.
  - repeat constructor.
Defined.

(** ** One- or two-character operators *)

Lemma lex_operator_tokens c r two one :
  operator_tokens c = Some (two, one) -> lex c r = lex_operator c r two one.
Proof.
  unfold operator_tokens.
  repeat match goal with
  | |- context [if c =? ?k then _ else _] =>
      let E := fresh "E" in
      destruct (c =? k) eqn:E;
      [ apply Z.eqb_eq in E; subst c; intros O; inversion O; subst; reflexivity | ]
  end.
  discriminate.
Qed.

(** C6: on [!], [=], [<] or [>] the scanner adds the two-character
    operator and reads the following [=] exactly when the following rune
    is [=]; otherwise it adds the one-character operator and reads no
    more.  No error is reported either way. *)
Theorem operator_lookahead
    (s : Scanner) (c : rune) (r : list rune) (two one : TokenType)
    (H : wf s) (E : remaining s = c :: r)
    (O : operator_tokens c = Some (two, one)) :
  (exists s1,
      loop_body s = Ok (tt, s1) /\ lox s1 = lox s /\ line s1 = line s /\
      ((hd_error r = Some (rn "=") /\
        tokens s1 = tokens s ++ [plain_token two [c; rn "="] (line s)] /\
        remaining s1 = tl r) \/
       (hd_error r <> Some (rn "=") /\
        tokens s1 = tokens s ++ [plain_token one [c] (line s)] /\
        remaining s1 = r))) /\
  (exists s',
      scan (runes "!=<<=") =
      Ok ([ plain_token BANG_EQUAL (runes "!=") 1;
            plain_token LESS (runes "<") 1;
            plain_token LESS_EQUAL (runes "<=") 1;
            eof_token 1 ], s') /\
      stderr (lox s') = []).
Proof.
  split; [|eexists; split; vm_compute; reflexivity].
  pose proof (lex_operator_tokens c r two one O) as L.
  unfold lex_operator in L.
  destruct (next_is (rn "=") r) eqn:N.
  - destruct (next_is_cons _ _ N) as [r' ->].
    destruct (loop_body_lex s c _ _ _ _ r' H E L eq_refl) as (B & _ & R).
    eexists. split; [exact B|].
    rewrite tokens_finish, lox_finish.
    destruct (finish_fields s [c; rn "="] 0 (Emit two LNil)) as (_ & _ & _ & ->).
    replace (line s + 0) with (line s) by lia.
    split; [reflexivity|]. split; [reflexivity|]. left. auto.
  - destruct (loop_body_lex s c _ _ _ _ r H E L eq_refl) as (B & _ & R).
    eexists. split; [exact B|].
    rewrite tokens_finish, lox_finish.
    destruct (finish_fields s [c] 0 (Emit one LNil)) as (_ & _ & _ & ->).
    replace (line s + 0) with (line s) by lia.
    split; [reflexivity|]. split; [reflexivity|]. right.
    split; [|auto].
    destruct r as [|d r']; simpl in *; [discriminate|].
    intros Q. inversion Q; subst. rewrite Z.eqb_refl in N. discriminate.
Qed.

Lemma operator_lookahead_witness :
  (exists s1,
      loop_body (NewScanner (runes "<=1") lox0) = Ok (tt, s1) /\
      lox s1 = lox0 /\ line s1 = 1 /\
      ((hd_error (runes "=1") = Some (rn "=") /\
        tokens s1 = [] ++ [plain_token LESS_EQUAL [rn "<"; rn "="] 1] /\
        remaining s1 = tl (runes "=1")) \/
       (hd_error (runes "=1") <> Some (rn "=") /\
        tokens s1 = [] ++ [plain_token LESS [rn "<"] 1] /\
        remaining s1 = runes "=1"))) /\
  (exists s',
      scan (runes "!=<<=") =
      Ok ([ plain_token BANG_EQUAL (runes "!=") 1;
            plain_token LESS (runes "<") 1;
            plain_token LESS_EQUAL (runes "<=") 1;
            eof_token 1 ], s') /\
      stderr (lox s') = []).
Proof.
  apply (operator_lookahead (NewScanner (runes "<=1") lox0)
           (rn "<") (runes "=1") LESS_EQUAL LESS).
  - unfold wf. vm_compute. intuition discriminate.
  - reflexivity.
  - reflexivity.
Defined.

(** ** The line counter *)

Lemma firstn_remaining s pre rest :
  wf s -> remaining s = pre ++ rest ->
  firstn (Z.to_nat (current s + len pre)) (source s) =
  firstn (Z.to_nat (current s)) (source s) ++ pre.
Proof.
  intros H E. pose proof (wf_current_nonneg s H) as P.
  assert (L : (Z.to_nat (current s) <= length (source s))%nat).
  { unfold wf, len in H. lia. }
  unfold remaining in E.
  rewrite <- (firstn_skipn (Z.to_nat (current s)) (source s)) at 1.
  rewrite E.
  replace (Z.to_nat (current s + len pre))
    with (length (firstn (Z.to_nat (current s)) (source s)) + length pre)%nat
    by (rewrite length_firstn; unfold len; lia).
  rewrite firstn_app_2, firstn_app, Nat.sub_diag, firstn_all. simpl.
  rewrite app_nil_r. reflexivity.
Qed.

Lemma line_of_consumed s pre rest :
  wf s -> remaining s = pre ++ rest ->
  line_of (source s) (current s + len pre) =
  line_of (source s) (current s) + newlines pre.
Proof.
  intros H E. unfold line_of.
  rewrite (firstn_remaining s pre rest H E), newlines_app. lia.
Qed.

(** In every state of the loop the line counter is the line of the
    cursor. *)
Lemma iterates_line src l s :
  len src < int_max -> iterates (NewScanner src l) s ->
  (source s = src /\ line s = line_of src (current s)) /\ wf s.
Proof.
  intros H I.
  apply (iterates_invariant
           (fun s => source s = src /\ line s = line_of src (current s)))
    with (s := NewScanner src l);
    [ | exact I | apply wf_NewScanner; exact H | split; reflexivity ].
  clear. intros s c r pre nl out rest W [S L] E _ P N.
  destruct (finish_fields s pre nl out) as (-> & _ & -> & ->).
  split; auto. rewrite P in E. subst src.
  rewrite (line_of_consumed s pre rest W E). lia.
Qed.

(** ** String literals *)

Lemma take_while_not_quote body rest :
  ~ In r_quote body ->
  take_while not_quote (body ++ r_quote :: rest) = body /\
  drop_while not_quote (body ++ r_quote :: rest) = r_quote :: rest.
Proof.
  induction body as [|c body IH]; intros N; simpl.
  - auto.
  - assert (Q : not_quote c = true).
    { unfold not_quote. apply negb_true_iff, Z.eqb_neq.
      intros ->. apply N. left. reflexivity. }
    rewrite Q. destruct IH as [A B].
    + intros I. apply N. right. exact I.
    + rewrite A, B. auto.
Qed.

Lemma take_while_no_quote rest :
  ~ In r_quote rest ->
  take_while not_quote rest = rest /\ drop_while not_quote rest = [].
Proof.
  induction rest as [|c rest IH]; intros N; simpl.
  - auto.
  - assert (Q : not_quote c = true).
    { unfold not_quote. apply negb_true_iff, Z.eqb_neq.
      intros ->. apply N. left. reflexivity. }
    rewrite Q. destruct IH as [A B].
    + intros I. apply N. right. exact I.
    + rewrite A, B. auto.
Qed.

Lemma lex_quote r :
  lex r_quote r =
  (string_lexeme r_quote r, newlines (take_while not_quote r), string_outcome r).
Proof. reflexivity. Qed.

(** C5: a string literal closed by a double quote gives a STRING token
    whose literal is the text between the quotes as it stands in the
    source, a backslash being a rune like any other; the line of the token
    is the line of the closing quote, the line breaks inside the string
    having been counted. *)
Theorem string_literal_token
    (src : list rune) (s : Scanner) (body rest : list rune)
    (H : len src < int_max)
    (I : iterates (NewScanner src lox0) s)
    (E : remaining s = r_quote :: body ++ r_quote :: rest)
    (N : ~ In r_quote body) :
  exists s1,
    loop_body s = Ok (tt, s1) /\
    tokens s1 = tokens s ++
      [ {| TokenType_ := STRING;
           Lexeme := r_quote :: body ++ [r_quote];
           Literal_ := LString body;
           Line := line s + newlines body |} ] /\
    line s + newlines body = line_of src (current s + 1 + len body) /\
    nth_error src (Z.to_nat (current s + 1 + len body)) = Some r_quote /\
    lox s1 = lox s /\ remaining s1 = rest.
Proof.
  destruct (iterates_line src lox0 s H I) as ((S & L) & W).
  destruct (take_while_not_quote body rest N) as [T D].
  pose proof (lex_quote (body ++ r_quote :: rest)) as X.
  unfold string_lexeme, string_outcome in X. rewrite T, D in X.
  assert (P : r_quote :: body ++ r_quote :: rest =
              (r_quote :: body ++ [r_quote]) ++ rest).
  { simpl. rewrite <- app_assoc. reflexivity. }
  destruct (loop_body_lex s _ _ _ _ _ rest W E X P) as (B & _ & R).
  eexists. split; [exact B|].
  rewrite tokens_finish, lox_finish.
  split; [reflexivity|]. split; [|split; [|split; [reflexivity|exact R]]].
  - assert (E1 : remaining s = (r_quote :: body) ++ r_quote :: rest) by exact E.
    pose proof (line_of_consumed s _ _ W E1) as K.
    rewrite len_cons, newlines_cons in K. change (r_quote =? r_newline) with false in K.
    rewrite S in K. rewrite L.
    replace (current s + 1 + len body) with (current s + (1 + len body)) by lia.
    lia.
  - assert (E1 : remaining s = (r_quote :: body) ++ r_quote :: rest) by exact E.
    pose proof (remaining_consumed s _ _ 0 W E1) as K.
    unfold remaining, consumed in K. cbn [current source] in K.
    rewrite len_cons in K.
    destruct (skipn_cons_inv _ _ _ _ K) as (Q & _ & _).
    rewrite S in Q.
    replace (current s + 1 + len body) with (current s + (1 + len body)) by lia.
    exact Q.
Qed.

Lemma string_literal_token_witness :
  exists s1,
    loop_body (NewScanner example_string_src lox0) = Ok (tt, s1) /\
    tokens s1 = [] ++
      [ {| TokenType_ := STRING;
           Lexeme := r_quote :: example_string_body ++ [r_quote];
           Literal_ := LString example_string_body;
           Line := 1 + newlines example_string_body |} ] /\
    1 + newlines example_string_body =
      line_of example_string_src (0 + 1 + len example_string_body) /\
    nth_error example_string_src
      (Z.to_nat (0 + 1 + len example_string_body)) = Some r_quote /\
    lox s1 = lox0 /\ remaining s1 = runes "x".
Proof.
  apply (string_literal_token example_string_src
           (NewScanner example_string_src lox0)
           example_string_body (runes "x")).
  - reflexivity.
  - constructor.
  - reflexivity.
  - vm_compute. intuition discriminate.
Defined.

(** C2: when a double quote opens a string literal and the source ends
    before a closing double quote, no token is added for it, one
    unterminated-string error is reported, at the line reached at the end
    of the source, and the tokens returned are those read before it
    with the EOF token after them. *)
Theorem unterminated_string_reported
    (src : list rune) (s : Scanner) (rest : list rune)
    (H : len src < int_max)
    (I : iterates (NewScanner src lox0) s)
    (E : remaining s = r_quote :: rest)
    (N : ~ In r_quote rest) :
  (exists s',
      scan src = Ok (tokens s ++ [eof_token (line s + newlines rest)], s') /\
      stderr (lox s') =
        stderr (lox s) ++ [unterminated_string_at (line s + newlines rest)] /\
      line s + newlines rest = line_of src (len src)) /\
  (exists s',
      scan (r_quote :: runes "hi") = Ok ([eof_token 1], s') /\
      stderr (lox s') = [unterminated_string_at 1]).
Proof.
  split; [|eexists; split; vm_compute; reflexivity].
  destruct (iterates_line src lox0 s H I) as ((S & L) & W).
  destruct (take_while_no_quote rest N) as [T D].
  pose proof (lex_quote rest) as X.
  unfold string_lexeme, string_outcome in X. rewrite T, D in X.
  assert (P : r_quote :: rest = (r_quote :: rest) ++ []) by (rewrite app_nil_r; auto).
  destruct (loop_body_lex s _ _ _ _ _ [] W E X P) as (B & W1 & R).
  assert (I1 : iterates (NewScanner src lox0) (finish s (r_quote :: rest) (newlines rest)
                                (Report ErrUnterminatedString))).
  { apply (iterates_trans _ s); auto.
    apply (iterates_lex s _ _ _ _ _ _ W E X). constructor. }
  eexists. split; [|split].
  - unfold scan.
    rewrite (ScanTokens_end _ _ (wf_NewScanner src lox0 H) I1 R).
    rewrite tokens_finish, app_nil_r.
    destruct (finish_fields s (r_quote :: rest) (newlines rest)
                (Report ErrUnterminatedString)) as (_ & _ & _ & ->).
    reflexivity.
  - cbn [lox set_tokens]. rewrite lox_finish. reflexivity.
  - rewrite P in E. pose proof (line_of_consumed s _ _ W E) as K.
    pose proof (remaining_length s W) as RL.
    rewrite E, app_nil_r in RL. rewrite S in *.
    replace (current s + len (r_quote :: rest)) with (len src) in K by lia.
    rewrite K, L, newlines_cons.
    change (if r_quote =? r_newline then 1 else 0) with 0. lia.
Qed.

Lemma unterminated_string_reported_witness :
  (exists s',
      scan example_open_src =
      Ok (tokens example_open_state ++
          [eof_token (line example_open_state +
                      newlines (runes "hi" ++ [r_newline]))], s') /\
      stderr (lox s') =
        stderr (lox example_open_state) ++
        [unterminated_string_at (line example_open_state +
                                 newlines (runes "hi" ++ [r_newline]))] /\
      line example_open_state + newlines (runes "hi" ++ [r_newline]) =
        line_of example_open_src (len example_open_src)) /\
  (exists s',
      scan (r_quote :: runes "hi") = Ok ([eof_token 1], s') /\
      stderr (lox s') = [unterminated_string_at 1]).
Proof.
  apply (unterminated_string_reported example_open_src example_open_state
           (runes "hi" ++ [r_newline])).
  - reflexivity.
  - apply (iterates_step _ example_open_state example_open_state);
      [vm_compute; reflexivity | vm_compute; reflexivity | constructor].
  - reflexivity.
  - vm_compute. intuition discriminate.
Defined.

(** ** Block comments, from the input *)

Lemma occurs_close_cons c l : occurs_close l -> occurs_close (c :: l).
Proof. intros (a & b & ->). exists (c :: a), b. reflexivity. Qed.

Lemma block_span_closed body rest :
  ~ occurs_close (body ++ [rn "*"]) ->
  block_span (body ++ rn "*" :: rn "/" :: rest) = (body ++ [rn "*"; rn "/"], true).
Proof.
  induction body as [|c body IH]; intros N.
  - reflexivity.
  - cbn [app block_span].
    destruct ((c =? rn "*") && (hd 0 (body ++ rn "*" :: rn "/" :: rest) =? rn "/")) eqn:C.
    + exfalso. apply andb_true_iff in C. destruct C as [C1 C2].
      apply Z.eqb_eq in C1, C2. subst c.
      destruct body as [|d body]; simpl in C2; [discriminate|].
      subst d. apply N. exists [], (body ++ [rn "*"]). reflexivity.
    + rewrite IH; auto. intros O. apply N.
      apply (occurs_close_cons c) in O. exact O.
Qed.

Lemma block_span_open t :
  ~ occurs_close t -> block_span t = (t, false).
Proof.
  induction t as [|c t IH]; intros N.
  - reflexivity.
  - cbn [block_span].
    destruct ((c =? rn "*") && (hd 0 t =? rn "/")) eqn:C.
    + exfalso. apply andb_true_iff in C. destruct C as [C1 C2].
      apply Z.eqb_eq in C1, C2. subst c.
      destruct t as [|d t]; simpl in C2; [discriminate|].
      subst d. apply N. exists [], t. reflexivity.
    + rewrite IH; auto. intros O. apply N.
      apply (occurs_close_cons c) in O. exact O.
Qed.

Lemma lex_block t :
  lex (rn "/") (rn "*" :: t) =
  (let '(pre, closed) := block_span t in
   (rn "/" :: rn "*" :: pre, newlines pre,
    if closed then Skip else Report ErrUnterminatedBlockComment)).
Proof. reflexivity. Qed.

(** C4: a block comment ends at the first closing delimiter after its
    opening delimiter, whatever stands between them (an opening delimiter
    included); the line breaks in it are counted and no token is added.
    When the source ends before a closing delimiter, an
    unterminated-comment error is reported at the line reached and no
    token is added. *)
Theorem block_comment_closing
    (s : Scanner) (t : list rune)
    (H : wf s) (E : remaining s = rn "/" :: rn "*" :: t) :
  (forall body rest,
      t = body ++ rn "*" :: rn "/" :: rest ->
      ~ occurs_close (body ++ [rn "*"]) ->
      exists s1,
        loop_body s = Ok (tt, s1) /\ tokens s1 = tokens s /\
        lox s1 = lox s /\ line s1 = line s + newlines body /\
        remaining s1 = rest) /\
  (~ occurs_close t ->
      exists s1,
        loop_body s = Ok (tt, s1) /\ tokens s1 = tokens s /\
        stderr (lox s1) =
          stderr (lox s) ++ [unterminated_comment_at (line s + newlines t)] /\
        line s1 = line s + newlines t /\
        remaining s1 = []) /\
  (exists s',
      scan (runes "/* a" ++ [r_newline] ++ runes "b */ 2") =
      Ok ([number_token (runes "2") (dyadic 2 0) 2; eof_token 2], s') /\
      stderr (lox s') = []) /\
  (exists s',
      scan (runes "/* a /* b */ 2") =
      Ok ([number_token (runes "2") (dyadic 2 0) 1; eof_token 1], s') /\
      stderr (lox s') = []).
Proof.
  split; [|split; [|split; eexists; split; vm_compute; reflexivity]].
  - intros body rest -> N.
    pose proof (lex_block (body ++ rn "*" :: rn "/" :: rest)) as X.
    rewrite (block_span_closed body rest N) in X.
    assert (P : rn "/" :: rn "*" :: body ++ rn "*" :: rn "/" :: rest =
                (rn "/" :: rn "*" :: body ++ [rn "*"; rn "/"]) ++ rest).
    { simpl. rewrite <- app_assoc. reflexivity. }
    destruct (loop_body_lex s _ _ _ _ _ rest H E X P) as (B & _ & R).
    eexists. split; [exact B|].
    rewrite tokens_finish, lox_finish, app_nil_r.
    destruct (finish_fields s (rn "/" :: rn "*" :: body ++ [rn "*"; rn "/"])
                (newlines (body ++ [rn "*"; rn "/"])) Skip) as (_ & _ & _ & ->).
    rewrite newlines_app. change (newlines [rn "*"; rn "/"]) with 0.
    replace (newlines body + 0) with (newlines body) by lia. auto.
  - intros N.
    pose proof (lex_block t) as X. rewrite (block_span_open t N) in X.
    assert (P : rn "/" :: rn "*" :: t = (rn "/" :: rn "*" :: t) ++ [])
      by (rewrite app_nil_r; reflexivity).
    destruct (loop_body_lex s _ _ _ _ _ [] H E X P) as (B & _ & R).
    eexists. split; [exact B|].
    rewrite tokens_finish, lox_finish, app_nil_r.
    destruct (finish_fields s (rn "/" :: rn "*" :: t) (newlines t)
                (Report ErrUnterminatedBlockComment)) as (_ & _ & _ & ->).
    auto.
Qed.

Lemma block_comment_closing_witness :
  (forall body rest,
      runes "a/*b*/c*/" = body ++ rn "*" :: rn "/" :: rest ->
      ~ occurs_close (body ++ [rn "*"]) ->
      exists s1,
        loop_body (NewScanner (runes "/*a/*b*/c*/") lox0) = Ok (tt, s1) /\
        tokens s1 = [] /\
        lox s1 = lox0 /\ line s1 = 1 + newlines body /\
        remaining s1 = rest) /\
  (~ occurs_close (runes "a/*b*/c*/") ->
      exists s1,
        loop_body (NewScanner (runes "/*a/*b*/c*/") lox0) = Ok (tt, s1) /\
        tokens s1 = [] /\
        stderr (lox s1) =
          [] ++ [unterminated_comment_at (1 + newlines (runes "a/*b*/c*/"))] /\
        line s1 = 1 + newlines (runes "a/*b*/c*/") /\
        remaining s1 = []) /\
  (exists s',
      scan (runes "/* a" ++ [r_newline] ++ runes "b */ 2") =
      Ok ([number_token (runes "2") (dyadic 2 0) 2; eof_token 2], s') /\
      stderr (lox s') = []) /\
  (exists s',
      scan (runes "/* a /* b */ 2") =
      Ok ([number_token (runes "2") (dyadic 2 0) 1; eof_token 1], s') /\
      stderr (lox s') = []).
Proof.
  apply (block_comment_closing (NewScanner (runes "/*a/*b*/c*/") lox0)
           (runes "a/*b*/c*/")).
  - unfold wf. vm_compute. intuition discriminate.
  - reflexivity.
Defined.

(** ** Number literals *)

Lemma take_drop_while_maximal (p : rune -> bool) l1 l2 :
  Forall (fun c => p c = true) l1 -> p (hd 0 l2) = false ->
  take_while p (l1 ++ l2) = l1 /\ drop_while p (l1 ++ l2) = l2.
Proof.
  intros F M. induction F as [|c l1 Hc Hl IH]; simpl.
  - destruct l2 as [|d l2]; simpl in *; auto. rewrite M. auto.
  - rewrite Hc. destruct IH as [A B]. rewrite A, B. auto.
Qed.

Lemma drop_while_head_false (p : rune -> bool) l :
  p 0 = false -> p (hd 0 (drop_while p l)) = false.
Proof.
  intros P0. destruct (p (hd 0 (drop_while p l))) eqn:E; auto.
  rewrite (drop_while_head p l E) in E. simpl in E. congruence.
Qed.

Lemma lex_digit c r :
  isDigit c = true ->
  lex c r = (number_text c r, 0, number_outcome (number_text c r)).
Proof.
  intros D. unfold lex.
  assert (R : 48 <= c <= 57).
  { unfold isDigit in D. apply andb_true_iff in D. destruct D as [A B].
    apply Z.leb_le in A, B. exact (conj A B). }
  repeat match goal with
  | |- context [c =? ?k] =>
      replace (c =? k) with false
        by (symmetry; apply Z.eqb_neq; intros Q; rewrite Q in R;
            vm_compute in R; destruct R as [R1 R2];
            first [apply R1; reflexivity | apply R2; reflexivity])
  end.
  cbn [orb]. rewrite D. reflexivity.
Qed.

(** The text matched at a run of digits [ds] followed by [rest]. *)
Lemma number_text_digits c ds rest :
  digits (c :: ds) -> isDigit (hd 0 rest) = false ->
  exists text after,
    number_text c (ds ++ rest) = text /\
    c :: ds ++ rest = text ++ after /\
    ((exists fs,
         fs <> [] /\ digits fs /\ isDigit (hd 0 after) = false /\
         rest = rn "." :: fs ++ after /\
         text = (c :: ds) ++ rn "." :: fs) \/
     (text = c :: ds /\ after = rest /\
      ~ (exists d rest', rest = rn "." :: d :: rest' /\ isDigit d = true))).
Proof.
  intros F M. inversion F as [|? ? Fc Fd]; subst.
  destruct (take_drop_while_maximal isDigit ds rest Fd M) as [T D].
  unfold number_text. rewrite T, D.
  destruct ((hd 0 rest =? rn ".") && isDigit (hd 0 (tl rest))) eqn:B.
  - apply andb_true_iff in B. destruct B as [B1 B2]. apply Z.eqb_eq in B1.
    destruct rest as [|p rest1]; [discriminate|]. cbn [hd tl] in *. subst p.
    destruct rest1 as [|d rest2]; [discriminate|]. cbn [hd] in B2.
    exists (c :: ds ++ rn "." :: take_while isDigit (d :: rest2)),
           (drop_while isDigit (d :: rest2)).
    split; [reflexivity|]. split.
    + simpl. rewrite <- app_assoc. simpl.
      pose proof (take_drop_while isDigit (d :: rest2)) as S. simpl in S.
      rewrite S. reflexivity.
    + left. exists (take_while isDigit (d :: rest2)).
      split; [simpl; rewrite B2; discriminate|].
      split; [apply take_while_all|].
      split; [apply drop_while_head_false; reflexivity|].
      split; [|reflexivity].
      rewrite (take_drop_while isDigit (d :: rest2)). reflexivity.
  - exists (c :: ds), rest. split; [reflexivity|]. split; [reflexivity|].
    right. split; [reflexivity|]. split; [reflexivity|].
    intros (d & rest' & -> & Dd). cbn [hd tl] in B.
    rewrite Dd in B. discriminate.
Qed.

(** C3: a number literal is a run of digits, then possibly a dot and a
    run of digits; the dot is read only when a digit follows it, and a dot
    left unread is scanned next as a DOT token.  The NUMBER token carries
    the matched text and, as its literal, that text parsed by
    [strconv.ParseFloat]. *)
Theorem number_literal
    (s : Scanner) (ds rest : list rune)
    (H : wf s) (E : remaining s = ds ++ rest)
    (D : ds <> []) (F : digits ds) (M : isDigit (hd 0 rest) = false) :
  (exists text after s1,
      loop_body s = Ok (tt, s1) /\ remaining s1 = after /\
      ds ++ rest = text ++ after /\ line s1 = line s /\
      ((exists fs,
           fs <> [] /\ digits fs /\ isDigit (hd 0 after) = false /\
           rest = rn "." :: fs ++ after /\
           text = ds ++ rn "." :: fs) \/
       (text = ds /\ after = rest /\
        ~ (exists d rest', rest = rn "." :: d :: rest' /\ isDigit d = true))) /\
      match ParseFloat text with
      | (value, None) =>
          tokens s1 = tokens s ++ [number_token text value (line s)] /\
          lox s1 = lox s
      | (_, Some _) =>
          tokens s1 = tokens s /\
          stderr (lox s1) = stderr (lox s) ++ [invalid_number_at (line s)]
      end /\
      (forall rest',
          rest = rn "." :: rest' -> isDigit (hd 0 rest') = false ->
          text = ds /\
          exists s2,
            loop_body s1 = Ok (tt, s2) /\
            tokens s2 = tokens s1 ++ [plain_token DOT [rn "."] (line s)] /\
            lox s2 = lox s1 /\ remaining s2 = rest')) /\
  (exists s',
      scan (runes "1 + 2.5") =
      Ok ([ number_token (runes "1") (dyadic 1 0) 1;
            plain_token PLUS (runes "+") 1;
            number_token (runes "2.5") (dyadic 5 (-1)) 1;
            eof_token 1 ], s') /\
      stderr (lox s') = []) /\
  (exists s',
      scan (runes "1.") =
      Ok ([ number_token (runes "1") (dyadic 1 0) 1;
            plain_token DOT (runes ".") 1;
            eof_token 1 ], s') /\
      stderr (lox s') = []).
Proof.
  split; [|split; eexists; split; vm_compute; reflexivity].
  destruct ds as [|c ds]; [congruence|].
  assert (Dc : isDigit c = true) by (inversion F; auto).
  destruct (number_text_digits c ds rest F M) as (text & after & T & P & G).
  pose proof (lex_digit c (ds ++ rest) Dc) as X. rewrite T in X.
  destruct (loop_body_lex s c (ds ++ rest) _ _ _ after H E X P) as (B & W1 & R).
  exists text, after, (finish s text 0 (number_outcome text)).
  destruct (finish_fields s text 0 (number_outcome text)) as (_ & _ & _ & L1).
  replace (line s + 0) with (line s) in L1 by lia.
  split; [exact B|]. split; [exact R|]. split; [exact P|]. split; [exact L1|].
  split; [exact G|]. split.
  - rewrite tokens_finish, lox_finish. unfold number_outcome.
    replace (line s + 0) with (line s) by lia.
    destruct (ParseFloat text) as [value [e|]].
    + rewrite app_nil_r. auto.
    + auto.
  - intros rest' -> M'.
    assert (Q : text = c :: ds /\ after = rn "." :: rest').
    { destruct G as [(fs & N1 & N2 & _ & N4 & _)|(G1 & G2 & _)]; auto.
      exfalso. inversion N4 as [N5]. subst rest'.
      destruct fs as [|d fs]; [congruence|].
      inversion N2; subst. simpl in M'. congruence. }
    destruct Q as [Q1 Q2]. split; [exact Q1|].
    rewrite Q2 in R.
    assert (X2 : lex (rn ".") rest' = ([rn "."], 0, Emit DOT LNil)) by reflexivity.
    destruct (loop_body_lex _ _ _ _ _ _ rest' W1 R X2 eq_refl) as (B2 & _ & R2).
    eexists. split; [exact B2|].
    rewrite tokens_finish, lox_finish.
    destruct (finish_fields s text 0 (number_outcome text)) as (_ & _ & _ & ->).
    replace (line s + 0 + 0) with (line s) by lia. auto.
Qed.

Lemma number_literal_witness :
  (exists text after s1,
      loop_body (NewScanner (runes "12.5+3") lox0) = Ok (tt, s1) /\
      remaining s1 = after /\
      runes "12" ++ runes ".5+3" = text ++ after /\ line s1 = 1 /\
      ((exists fs,
           fs <> [] /\ digits fs /\ isDigit (hd 0 after) = false /\
           runes ".5+3" = rn "." :: fs ++ after /\
           text = runes "12" ++ rn "." :: fs) \/
       (text = runes "12" /\ after = runes ".5+3" /\
        ~ (exists d rest', runes ".5+3" = rn "." :: d :: rest' /\
                           isDigit d = true))) /\
      match ParseFloat text with
      | (value, None) =>
          tokens s1 = [] ++ [number_token text value 1] /\
          lox s1 = lox0
      | (_, Some _) =>
          tokens s1 = [] /\
          stderr (lox s1) = [] ++ [invalid_number_at 1]
      end /\
      (forall rest',
          runes ".5+3" = rn "." :: rest' -> isDigit (hd 0 rest') = false ->
          text = runes "12" /\
          exists s2,
            loop_body s1 = Ok (tt, s2) /\
            tokens s2 = tokens s1 ++ [plain_token DOT [rn "."] 1] /\
            lox s2 = lox s1 /\ remaining s2 = rest')) /\
  (exists s',
      scan (runes "1 + 2.5") =
      Ok ([ number_token (runes "1") (dyadic 1 0) 1;
            plain_token PLUS (runes "+") 1;
            number_token (runes "2.5") (dyadic 5 (-1)) 1;
            eof_token 1 ], s') /\
      stderr (lox s') = []) /\
  (exists s',
      scan (runes "1.") =
      Ok ([ number_token (runes "1") (dyadic 1 0) 1;
            plain_token DOT (runes ".") 1;
            eof_token 1 ], s') /\
      stderr (lox s') = []).
Proof.
  apply (number_literal (NewScanner (runes "12.5+3") lox0)
           (runes "12") (runes ".5+3")).
  - unfold wf. vm_compute. intuition discriminate.
  - reflexivity.
  - discriminate.
  - repeat constructor.
  - reflexivity.
Defined.

(** ** Decoding the matched text *)

Lemma digit_val_digit c : isDigit c = true -> digit_val c = Some (c - rn "0").
Proof. unfold digit_val, isDigit. intros ->. reflexivity. Qed.

Lemma digit_val_not_digit c : isDigit c = false -> digit_val c = None.
Proof. unfold digit_val, isDigit. intros ->. reflexivity. Qed.

Lemma read_digits_digits ds : forall acc n rest,
  digits ds -> isDigit (hd 0 rest) = false ->
  read_digits acc n (ds ++ rest) =
  (digits_value acc ds, (n + length ds)%nat, rest).
Proof.
  induction ds as [|c ds IH]; intros acc n rest F M.
  - simpl. rewrite Nat.add_0_r. destruct rest as [|d rest]; auto.
    simpl in *. rewrite (digit_val_not_digit d M). reflexivity.
  - inversion F; subst. simpl. rewrite (digit_val_digit c) by assumption.
    rewrite IH by assumption. do 2 f_equal. lia.
Qed.

Lemma digits_value_bound ds : forall acc,
  digits ds -> 0 <= acc ->
  0 <= digits_value acc ds /\
  digits_value acc ds + 1 <= (acc + 1) * 10 ^ len ds.
Proof.
  induction ds as [|c ds IH]; intros acc F A.
  - unfold digits_value. cbn [fold_left]. rewrite len_nil. lia.
  - inversion F as [|? ? Fc Fd]; subst.
    assert (R : 0 <= c - rn "0" <= 9).
    { unfold isDigit in Fc. apply andb_true_iff in Fc. destruct Fc as [B C].
      apply Z.leb_le in B, C. change (rn "9") with (rn "0" + 9) in C. lia. }
    unfold digits_value in *. cbn [fold_left].
    destruct (IH (10 * acc + (c - rn "0")) Fd) as [I1 I2]; [lia|].
    split; auto.
    rewrite len_cons, Z.pow_add_r by (pose proof (len_nonneg ds); lia).
    pose proof (Z.pow_pos_nonneg 10 (len ds)) as PP.
    assert (0 < 10 ^ len ds) by (apply PP; [lia | apply len_nonneg]).
    nia.
Qed.

Lemma read_decimal_integer ds :
  digits ds -> ds <> [] -> read_decimal ds = Some (digits_value 0 ds, O).
Proof.
  intros F N. unfold read_decimal.
  rewrite <- (app_nil_r ds) at 1.
  rewrite (read_digits_digits ds 0 0%nat [] F eq_refl).
  destruct ds; [congruence|]. reflexivity.
Qed.

Lemma read_decimal_fraction ds fs :
  digits ds -> ds <> [] -> digits fs ->
  read_decimal (ds ++ rn "." :: fs) =
  Some (digits_value (digits_value 0 ds) fs, length fs).
Proof.
  intros F N G. unfold read_decimal.
  rewrite (read_digits_digits ds 0 0%nat (rn "." :: fs) F eq_refl).
  change (rn "." =? rn ".") with true. cbv iota.
  rewrite <- (app_nil_r fs) at 1.
  rewrite (read_digits_digits fs _ 0%nat [] G eq_refl).
  destruct ds; [congruence|]. reflexivity.
Qed.

Lemma largest_below_bound : 10 ^ 308 <= 2 ^ 1024 - 2 ^ 970.
Proof. vm_compute. discriminate. Qed.

(** At the bound the range test and the rounding agree: the largest
    integer below it rounds to the largest binary64 number, the bound
    itself rounds to infinity. *)
Lemma out_of_range_boundary :
  out_of_range (2 ^ 1024 - 2 ^ 970 - 1) 0 = false /\
  nearest_float64 (2 ^ 1024 - 2 ^ 970 - 1) 0 =
    S754_finite false (Z.to_pos (2 ^ 53 - 1)) 971 /\
  out_of_range (2 ^ 1024 - 2 ^ 970) 0 = true /\
  nearest_float64 (2 ^ 1024 - 2 ^ 970) 0 = S754_infinity false.
Proof. repeat split; vm_compute; reflexivity. Qed.

Lemma in_range_small m k n :
  0 <= n <= 308 -> m + 1 <= 10 ^ n * 10 ^ Z.of_nat k -> out_of_range m k = false.
Proof.
  intros N B. unfold out_of_range. apply Z.leb_gt.
  pose proof largest_below_bound as L.
  assert (P : 0 < 10 ^ Z.of_nat k) by (apply Z.pow_pos_nonneg; lia).
  assert (Q : 10 ^ n <= 10 ^ 308) by (apply Z.pow_le_mono_r; lia).
  nia.
Qed.

(** C7, as the code has it: the text matched by [number] is always a
    well-formed decimal, so its decoding never fails for its syntax; the
    decoding fails, and an invalid-number error is reported instead of a
    token, exactly when the value written is at least [2^1024 - 2^970],
    out of the range of binary64.  A literal with at most 308 digits
    before the dot always decodes. *)
Theorem number_decoding
    (s : Scanner) (ds rest : list rune)
    (H : wf s) (E : remaining s = ds ++ rest)
    (D : ds <> []) (F : digits ds) (M : isDigit (hd 0 rest) = false) :
  exists text m k s1,
    loop_body s = Ok (tt, s1) /\
    ds ++ rest = text ++ remaining s1 /\
    read_decimal text = Some (m, k) /\
    (out_of_range m k = true ->
       ParseFloat text = (S754_infinity false, Some ErrRange) /\
       tokens s1 = tokens s /\
       stderr (lox s1) = stderr (lox s) ++ [invalid_number_at (line s)]) /\
    (out_of_range m k = false ->
       ParseFloat text = (nearest_float64 m k, None) /\
       tokens s1 = tokens s ++
         [number_token text (nearest_float64 m k) (line s)] /\
       lox s1 = lox s) /\
    (len ds <= 308 -> out_of_range m k = false).
Proof.
  destruct ds as [|c ds]; [congruence|].
  assert (Dc : isDigit c = true) by (inversion F; auto).
  destruct (number_text_digits c ds rest F M) as (text & after & T & P & G).
  pose proof (lex_digit c (ds ++ rest) Dc) as X. rewrite T in X.
  destruct (loop_body_lex s c (ds ++ rest) _ _ _ after H E X P) as (B & _ & R).
  assert (K : exists m k,
             read_decimal text = Some (m, k) /\
             m + 1 <= 10 ^ len (c :: ds) * 10 ^ Z.of_nat k).
  { assert (N : c :: ds <> []) by discriminate.
    destruct (digits_value_bound (c :: ds) 0 F) as [V1 V2]; [lia|].
    destruct G as [(fs & N1 & N2 & _ & _ & ->)|(-> & _ & _)].
    - exists (digits_value (digits_value 0 (c :: ds)) fs), (length fs).
      split; [apply read_decimal_fraction; auto|].
      destruct (digits_value_bound fs (digits_value 0 (c :: ds)) N2) as [W1 W2];
        [lia|].
      fold (len fs).
      assert (0 < 10 ^ len fs)
        by (apply Z.pow_pos_nonneg; [lia | apply len_nonneg]).
      nia.
    - exists (digits_value 0 (c :: ds)), O.
      split; [apply read_decimal_integer; auto|].
      change (10 ^ Z.of_nat 0) with 1. lia. }
  destruct K as (m & k & RD & Bm).
  exists text, m, k, (finish s text 0 (number_outcome text)).
  split; [exact B|]. split; [rewrite R; exact P|]. split; [exact RD|].
  assert (PF : ParseFloat text =
               if out_of_range m k then (S754_infinity false, Some ErrRange)
               else (nearest_float64 m k, None)).
  { unfold ParseFloat. rewrite RD. reflexivity. }
  rewrite tokens_finish, lox_finish. unfold number_outcome. rewrite PF.
  replace (line s + 0) with (line s) by lia.
  split; [|split].
  - intros O. rewrite O. rewrite app_nil_r. auto.
  - intros O. rewrite O. auto.
  - intros Ld. apply (in_range_small m k (len (c :: ds))); auto.
    pose proof (len_nonneg (c :: ds)). lia.
Qed.

Lemma number_decoding_witness :
  exists text m k s1,
    loop_body (NewScanner (runes "12.5+3") lox0) = Ok (tt, s1) /\
    runes "12" ++ runes ".5+3" = text ++ remaining s1 /\
    read_decimal text = Some (m, k) /\
    (out_of_range m k = true ->
       ParseFloat text = (S754_infinity false, Some ErrRange) /\
       tokens s1 = [] /\
       stderr (lox s1) = [] ++ [invalid_number_at 1]) /\
    (out_of_range m k = false ->
       ParseFloat text = (nearest_float64 m k, None) /\
       tokens s1 = [] ++ [number_token text (nearest_float64 m k) 1] /\
       lox s1 = lox0) /\
    (len (runes "12") <= 308 -> out_of_range m k = false).
Proof.
  apply (number_decoding (NewScanner (runes "12.5+3") lox0)
           (runes "12") (runes ".5+3")).
  - unfold wf. vm_compute. intuition discriminate.
  - reflexivity.
  - discriminate.
  - repeat constructor.
  - reflexivity.
Defined.

(** C7, as the specification has it, fails: the digit 1 followed by 309
    zeros is matched by [number], its decoding fails with a range error,
    and the invalid-number error is reported. *)
Lemma invalid_number_literal_reported :
  len huge_number < int_max /\
  ParseFloat huge_number = (S754_infinity false, Some ErrRange) /\
  (exists s',
      scan huge_number = Ok ([eof_token 1], s') /\
      stderr (lox s') = [invalid_number_at 1]) /\
  ~ (forall src ts s',
        len src < int_max -> scan src = Ok (ts, s') ->
        ~ In ErrInvalidNumberLiteral (map snd (stderr (lox s')))).
Proof.
  assert (S : exists s',
             scan huge_number = Ok ([eof_token 1], s') /\
             stderr (lox s') = [invalid_number_at 1]).
  { eexists. split; vm_compute; reflexivity. }
  split; [reflexivity|]. split; [vm_compute; reflexivity|]. split; [exact S|].
  intros C. destruct S as (s' & S1 & S2).
  apply (C huge_number _ s' eq_refl S1). rewrite S2. left. reflexivity.
Qed.

(** * Further properties of the scanner *)

(** ** Identifiers and keywords *)

Lemma isAlpha_range c :
  isAlpha c = true -> 65 <= c <= 90 \/ 97 <= c <= 122 \/ c = 95.
Proof.
  unfold isAlpha.
  change (rn "a") with 97. change (rn "z") with 122.
  change (rn "A") with 65. change (rn "Z") with 90.
  change (rn "_") with 95. intros A.
  apply orb_true_iff in A. destruct A as [A|A].
  - apply orb_true_iff in A. destruct A as [A|A];
      apply andb_true_iff in A; destruct A as [A1 A2];
      apply Z.leb_le in A1, A2; lia.
  - apply Z.eqb_eq in A. lia.
Qed.

Lemma lex_alpha c r :
  isAlpha c = true ->
  lex c r =
  (identifier_text c r, 0, Emit (identifier_type (identifier_text c r)) LNil).
Proof.
  intros A. pose proof (isAlpha_range c A) as R. unfold lex.
  repeat match goal with
  | |- context [c =? ?k] =>
      replace (c =? k) with false
        by (symmetry; apply Z.eqb_neq;
            let v := eval vm_compute in k in change k with v; lia)
  end.
  cbn [orb].
  replace (isDigit c) with false.
  - rewrite A. reflexivity.
  - symmetry. unfold isDigit. apply andb_false_iff.
    change (rn "0") with 48. change (rn "9") with 57.
    destruct (Z.le_gt_cases c 57) as [L|L].
    + left. apply Z.leb_gt. lia.
    + right. apply Z.leb_gt. lia.
Qed.

Lemma runes_eqb_eq a b : runes_eqb a b = true -> a = b.
Proof.
  unfold runes_eqb. destruct (list_eq_dec Z.eq_dec a b); [auto|discriminate].
Qed.

Lemma keywords_lookup_key k t :
  In (k, t) keywords -> keywords_lookup (runes k) = Some t.
Proof.
  unfold keywords. simpl.
  intros I.
  repeat (destruct I as [I|I]; [inversion I; subst; vm_compute; reflexivity|]).
  contradiction.
Qed.

Lemma keywords_lookup_some text t :
  keywords_lookup text = Some t ->
  exists k, In (k, t) keywords /\ text = runes k.
Proof.
  unfold keywords_lookup.
  destruct (find _ keywords) as [[k t']|] eqn:F; [|discriminate].
  intros Q. inversion Q; subst. apply find_some in F. destruct F as [I E].
  exists k. split; auto. simpl in E. symmetry. apply runes_eqb_eq. exact E.
Qed.

Lemma keywords_lookup_none text :
  keywords_lookup text = None ->
  forall k t, In (k, t) keywords -> runes k <> text.
Proof.
  unfold keywords_lookup.
  destruct (find _ keywords) as [kv|] eqn:F; [discriminate|].
  intros _ k t I Q.
  pose proof (find_none _ _ F (k, t) I) as N. simpl in N.
  unfold runes_eqb in N. destruct (list_eq_dec Z.eq_dec (runes k) text);
    [discriminate|contradiction].
Qed.

(** X1: on a letter or an underscore the scanner reads the longest run of
    letters, digits and underscores and adds one token with that text and
    no literal: the token type the map [keywords] gives for the text, and
    IDENTIFIER exactly when the text is no key of the map. *)
Theorem identifier_or_keyword
    (s : Scanner) (c : rune) (r : list rune)
    (H : wf s) (E : remaining s = c :: r) (A : isAlpha c = true) :
  exists s1,
    loop_body s = Ok (tt, s1) /\
    tokens s1 = tokens s ++
      [plain_token (identifier_type (c :: take_while isAlphaNumeric r))
                   (c :: take_while isAlphaNumeric r) (line s)] /\
    lox s1 = lox s /\ line s1 = line s /\
    remaining s1 = drop_while isAlphaNumeric r /\
    isAlphaNumeric (hd 0 (remaining s1)) = false /\
    (forall k t, In (k, t) keywords ->
       c :: take_while isAlphaNumeric r = runes k ->
       identifier_type (c :: take_while isAlphaNumeric r) = t) /\
    (identifier_type (c :: take_while isAlphaNumeric r) = IDENTIFIER <->
     forall k t, In (k, t) keywords ->
       runes k <> c :: take_while isAlphaNumeric r).
Proof.
  pose proof (lex_alpha c r A) as X. unfold identifier_text in X.
  assert (P : c :: r = (c :: take_while isAlphaNumeric r) ++
                       drop_while isAlphaNumeric r).
  { simpl. rewrite take_drop_while. reflexivity. }
  destruct (loop_body_lex s c r _ _ _ _ H E X P) as (B & _ & R).
  eexists. split; [exact B|].
  rewrite tokens_finish, lox_finish, R.
  match goal with
  | |- context [line (finish ?a ?b ?c ?d)] =>
      destruct (finish_fields a b c d) as (_ & _ & _ & ->)
  end.
  replace (line s + 0) with (line s) by lia.
  split; [reflexivity|]. split; [reflexivity|]. split; [reflexivity|].
  split; [reflexivity|].
  split; [apply drop_while_head_false; reflexivity|].
  set (text := c :: take_while isAlphaNumeric r).
  split.
  - intros k t I Q. unfold identifier_type. rewrite Q.
    rewrite (keywords_lookup_key k t I). reflexivity.
  - unfold identifier_type.
    destruct (keywords_lookup text) as [t|] eqn:L.
    + split.
      * intros Q. subst t.
        destruct (keywords_lookup_some _ _ L) as (k & I & _).
        exfalso. revert I. unfold keywords. simpl.
        intuition discriminate.
      * intros N. destruct (keywords_lookup_some _ _ L) as (k & I & Q).
        exfalso. apply (N k t I). symmetry. exact Q.
    + split; auto. intros _. apply keywords_lookup_none. exact L.
Qed.

Lemma identifier_or_keyword_witness :
  exists s1,
    loop_body (NewScanner (runes "and1 x") lox0) = Ok (tt, s1) /\
    tokens s1 = [] ++
      [plain_token (identifier_type (rn "a" :: take_while isAlphaNumeric (runes "nd1 x")))
                   (rn "a" :: take_while isAlphaNumeric (runes "nd1 x")) 1] /\
    lox s1 = lox0 /\ line s1 = 1 /\
    remaining s1 = drop_while isAlphaNumeric (runes "nd1 x") /\
    isAlphaNumeric (hd 0 (remaining s1)) = false /\
    (forall k t, In (k, t) keywords ->
       rn "a" :: take_while isAlphaNumeric (runes "nd1 x") = runes k ->
       identifier_type (rn "a" :: take_while isAlphaNumeric (runes "nd1 x")) = t) /\
    (identifier_type (rn "a" :: take_while isAlphaNumeric (runes "nd1 x")) = IDENTIFIER <->
     forall k t, In (k, t) keywords ->
       runes k <> rn "a" :: take_while isAlphaNumeric (runes "nd1 x")).
Proof.
  apply (identifier_or_keyword (NewScanner (runes "and1 x") lox0)
           (rn "a") (runes "nd1 x")).
  - unfold wf. vm_compute. intuition discriminate.
  - reflexivity.
  - reflexivity.
Defined.

(** ** Line comments, punctuation and blanks *)

Lemma lex_line_comment t :
  lex (rn "/") (rn "/" :: t) =
  (rn "/" :: rn "/" :: take_while not_newline t, 0, Skip).
Proof. reflexivity. Qed.

Lemma drop_while_not_newline_head t :
  drop_while not_newline t = [] \/
  exists t', drop_while not_newline t = r_newline :: t'.
Proof.
  induction t as [|c t IH]; simpl; auto.
  destruct (not_newline c) eqn:N; auto.
  right. exists t. unfold not_newline in N.
  apply negb_false_iff, Z.eqb_eq in N. subst c. reflexivity.
Qed.

(** X2: two slashes start a comment that runs up to the end of the line:
    the scanner reads the runes before the next line break (or the end of
    the source) and leaves the line break unread; it adds no token,
    reports nothing and does not change the line counter. *)
Theorem line_comment_skipped
    (s : Scanner) (t : list rune)
    (H : wf s) (E : remaining s = rn "/" :: rn "/" :: t) :
  (exists s1,
      loop_body s = Ok (tt, s1) /\
      tokens s1 = tokens s /\ lox s1 = lox s /\ line s1 = line s /\
      remaining s1 = drop_while not_newline t /\
      t = take_while not_newline t ++ remaining s1 /\
      ~ In r_newline (take_while not_newline t) /\
      (remaining s1 = [] \/ exists t', remaining s1 = r_newline :: t')) /\
  (exists s',
      scan (runes "// comment" ++ [r_newline] ++ runes "1") =
      Ok ([number_token (runes "1") (dyadic 1 0) 2; eof_token 2], s') /\
      stderr (lox s') = []).
Proof.
  split; [|eexists; split; vm_compute; reflexivity].
  pose proof (lex_line_comment t) as X.
  assert (P : rn "/" :: rn "/" :: t =
              (rn "/" :: rn "/" :: take_while not_newline t) ++
              drop_while not_newline t).
  { simpl. rewrite take_drop_while. reflexivity. }
  destruct (loop_body_lex s _ _ _ _ _ _ H E X P) as (B & _ & R).
  eexists. split; [exact B|].
  rewrite tokens_finish, lox_finish, app_nil_r, R.
  match goal with
  | |- context [line (finish ?a ?b ?c ?d)] =>
      destruct (finish_fields a b c d) as (_ & _ & _ & ->)
  end.
  replace (line s + 0) with (line s) by lia.
  repeat (split; [reflexivity|]).
  split; [symmetry; apply take_drop_while|].
  split; [|apply drop_while_not_newline_head].
  intros I. pose proof (take_while_all not_newline t) as F.
  rewrite Forall_forall in F. specialize (F _ I). discriminate.
Qed.

Lemma line_comment_skipped_witness :
  (exists s1,
      loop_body (NewScanner (runes "//a/*" ++ [r_newline] ++ runes "b") lox0)
      = Ok (tt, s1) /\
      tokens s1 = [] /\ lox s1 = lox0 /\ line s1 = 1 /\
      remaining s1 =
        drop_while not_newline (runes "a/*" ++ [r_newline] ++ runes "b") /\
      runes "a/*" ++ [r_newline] ++ runes "b" =
        take_while not_newline (runes "a/*" ++ [r_newline] ++ runes "b")
        ++ remaining s1 /\
      ~ In r_newline
          (take_while not_newline (runes "a/*" ++ [r_newline] ++ runes "b")) /\
      (remaining s1 = [] \/ exists t', remaining s1 = r_newline :: t')) /\
  (exists s',
      scan (runes "// comment" ++ [r_newline] ++ runes "1") =
      Ok ([number_token (runes "1") (dyadic 1 0) 2; eof_token 2], s') /\
      stderr (lox s') = []).
Proof.
  apply (line_comment_skipped
           (NewScanner (runes "//a/*" ++ [r_newline] ++ runes "b") lox0)
           (runes "a/*" ++ [r_newline] ++ runes "b")).
  - unfold wf. vm_compute. intuition discriminate.
  - reflexivity.
Defined.

Lemma lex_punctuation c r t :
  punctuation c = Some t ->
  (c = rn "/" -> next_is (rn "/") r = false /\ next_is (rn "*") r = false) ->
  lex c r = ([c], 0, Emit t LNil).
Proof.
  unfold punctuation.
  repeat match goal with
  | |- context [if c =? ?k then _ else _] =>
      let Q := fresh "Q" in
      destruct (c =? k) eqn:Q;
      [ apply Z.eqb_eq in Q; subst c; intros O S; inversion O; subst;
        first [ reflexivity
              | destruct (S eq_refl) as [S1 S2];
                unfold lex; cbn [Z.eqb rn]; unfold lex_slash;
                rewrite S1, S2; reflexivity ] | ]
  end.
  discriminate.
Qed.

(** X3: each of the runes ( ) { } , . - + ; * is a token by itself, and
    so is a slash that is followed neither by a slash nor by a star: the
    scanner reads that rune only and adds the token, with the rune as its
    lexeme and no literal. *)
Theorem punctuation_token
    (s : Scanner) (c : rune) (r : list rune) (t : TokenType)
    (H : wf s) (E : remaining s = c :: r)
    (P : punctuation c = Some t)
    (S : c = rn "/" ->
         next_is (rn "/") r = false /\ next_is (rn "*") r = false) :
  exists s1,
    loop_body s = Ok (tt, s1) /\
    tokens s1 = tokens s ++ [plain_token t [c] (line s)] /\
    lox s1 = lox s /\ line s1 = line s /\ remaining s1 = r.
Proof.
  pose proof (lex_punctuation c r t P S) as X.
  destruct (loop_body_lex s c r _ _ _ r H E X eq_refl) as (B & _ & R).
  eexists. split; [exact B|].
  rewrite tokens_finish, lox_finish.
  destruct (finish_fields s [c] 0 (Emit t LNil)) as (_ & _ & _ & ->).
  replace (line s + 0) with (line s) by lia. auto.
Qed.

Lemma punctuation_token_witness :
  exists s1,
    loop_body (NewScanner (runes "/2") lox0) = Ok (tt, s1) /\
    tokens s1 = [] ++ [plain_token SLASH [rn "/"] 1] /\
    lox s1 = lox0 /\ line s1 = 1 /\ remaining s1 = runes "2".
Proof.
  apply (punctuation_token (NewScanner (runes "/2") lox0)
           (rn "/") (runes "2") SLASH).
  - unfold wf. vm_compute. intuition discriminate.
  - reflexivity.
  - reflexivity.
  - intros _. split; reflexivity.
Defined.

Lemma lex_blank c r :
  blank c = true -> lex c r = ([c], 0, Skip).
Proof.
  unfold blank. intros B.
  assert (R : c = 32 \/ c = 13 \/ c = 9).
  { apply orb_true_iff in B. destruct B as [B|B];
      [apply orb_true_iff in B; destruct B as [B|B]|];
      apply Z.eqb_eq in B; vm_compute in B; auto. }
  unfold lex.
  repeat match goal with
  | |- context [if c =? ?k then _ else _] =>
      replace (c =? k) with false
        by (symmetry; apply Z.eqb_neq;
            let v := eval vm_compute in k in change k with v; lia)
  end.
  rewrite B. reflexivity.
Qed.

Lemma lex_newline r : lex r_newline r = ([r_newline], 1, Skip).
Proof. reflexivity. Qed.

(** X4: a space, a carriage return or a tab is read and dropped; a line
    break is read and dropped and adds one to the line counter.  Neither
    adds a token or reports anything. *)
Theorem blank_skipped
    (s : Scanner) (c : rune) (r : list rune)
    (H : wf s) (E : remaining s = c :: r)
    (B : blank c = true \/ c = r_newline) :
  exists s1,
    loop_body s = Ok (tt, s1) /\
    tokens s1 = tokens s /\ lox s1 = lox s /\ remaining s1 = r /\
    line s1 = line s + (if c =? r_newline then 1 else 0).
Proof.
  destruct B as [B|B].
  - pose proof (lex_blank c r B) as X.
    destruct (loop_body_lex s c r _ _ _ r H E X eq_refl) as (L & _ & R).
    eexists. split; [exact L|].
    rewrite tokens_finish, lox_finish, app_nil_r.
    destruct (finish_fields s [c] 0 Skip) as (_ & _ & _ & ->).
    replace (c =? r_newline) with false; auto.
    symmetry. apply Z.eqb_neq. intros ->. discriminate.
  - subst c. pose proof (lex_newline r) as X.
    destruct (loop_body_lex s _ r _ _ _ r H E X eq_refl) as (L & _ & R).
    eexists. split; [exact L|].
    rewrite tokens_finish, lox_finish, app_nil_r.
    destruct (finish_fields s [r_newline] 1 Skip) as (_ & _ & _ & ->).
    auto.
Qed.

Lemma blank_skipped_witness :
  exists s1,
    loop_body (NewScanner (r_newline :: runes " x") lox0) = Ok (tt, s1) /\
    tokens s1 = [] /\ lox s1 = lox0 /\ remaining s1 = runes " x" /\
    line s1 = 1 + (if r_newline =? r_newline then 1 else 0).
Proof.
  apply (blank_skipped (NewScanner (r_newline :: runes " x") lox0)
           r_newline (runes " x")).
  - unfold wf. vm_compute. intuition discriminate.
  - reflexivity.
  - right. reflexivity.
Defined.

(** ** Properties of all the tokens returned *)

(** A property of tokens that every token added by [scanToken] has, and
    the EOF token too, holds of all the tokens returned. *)
Lemma scan_tokens_forall (Q : Token -> Prop) :
  (forall c r pre nl t lit l,
      lex c r = (pre, nl, Emit t lit) ->
      Q {| TokenType_ := t; Lexeme := pre; Literal_ := lit; Line := l |}) ->
  (forall l, Q (eof_token l)) ->
  forall src, len src < int_max ->
  exists toks s', scan src = Ok (toks, s') /\ Forall Q toks.
Proof.
  intros Step Last src H.
  destruct (scan_total src H) as (s' & I & _ & _ & R).
  eexists _, _. split; [exact R|].
  apply Forall_app. split; [|constructor; auto].
  apply (iterates_invariant (fun s => Forall Q (tokens s)))
    with (s := NewScanner src lox0);
    [ | exact I | apply wf_NewScanner; exact H | constructor ].
  clear - Step. intros s c r pre nl out rest _ P _ L _ _.
  rewrite tokens_finish. apply Forall_app. split; auto.
  destruct out; constructor; auto. eapply Step; eauto.
Qed.

Lemma identifier_type_cases text :
  (identifier_type text = IDENTIFIER /\ keywords_lookup text = None) \/
  (exists k, In (k, identifier_type text) keywords /\ text = runes k).
Proof.
  unfold identifier_type.
  destruct (keywords_lookup text) as [t|] eqn:L; auto.
  right. apply keywords_lookup_some. exact L.
Qed.

Lemma lex_emit_spelling c r pre nl t lit sp :
  lex c r = (pre, nl, Emit t lit) -> spelling t = Some sp -> pre = sp.
Proof.
  unfold lex, lex_operator, lex_slash, string_outcome, number_outcome.
  repeat match goal with
  | |- context [if c =? ?k then _ else _] =>
      let Q := fresh "Q" in
      destruct (c =? k) eqn:Q; [apply Z.eqb_eq in Q; subst c|]
  | |- context [if ?b then _ else _] => destruct b
  | |- context [let '(_, _) := ?x in _] => destruct x
  | |- context [match ?x with Some _ => _ | None => _ end] => destruct x
  | |- context [match ?x with [] => _ | _ :: _ => _ end] => destruct x
  end;
  intros E S; inversion E; subst; simpl in S;
    try discriminate; try (inversion S; subst; reflexivity).
  destruct (identifier_type_cases (identifier_text c r)) as [[I _]|(k & I & T)].
  - rewrite I in S. discriminate.
  - rewrite T.
    remember (identifier_type (identifier_text c r)) as ty.
    clear - I S. unfold keywords in I. simpl in I.
    repeat (destruct I as [I|I];
            [inversion I; subst; simpl in S; inversion S; reflexivity|]).
    contradiction.
Qed.

(** X5: a token of a type that is always written the same way
    (punctuation, operator, keyword, EOF) has exactly that text as its
    lexeme, in all the tokens returned. *)
Theorem fixed_tokens_spelled (src : list rune) (H : len src < int_max) :
  exists toks s',
    scan src = Ok (toks, s') /\
    Forall (fun t => forall sp,
              spelling (TokenType_ t) = Some sp -> Lexeme t = sp) toks.
Proof.
  apply scan_tokens_forall; auto.
  - intros c r pre nl t lit l L sp S. simpl in *.
    eapply lex_emit_spelling; eauto.
  - intros l sp S. simpl in *. inversion S. reflexivity.
Qed.

Lemma fixed_tokens_spelled_witness :
  exists toks s',
    scan (runes "if (a <= b) return;") = Ok (toks, s') /\
    Forall (fun t => forall sp,
              spelling (TokenType_ t) = Some sp -> Lexeme t = sp) toks.
Proof.
  apply (fixed_tokens_spelled (runes "if (a <= b) return;")). reflexivity.
Defined.

Lemma take_while_not_quote_free r : ~ In r_quote (take_while not_quote r).
Proof.
  intros I. pose proof (take_while_all not_quote r) as F.
  rewrite Forall_forall in F. specialize (F _ I). discriminate.
Qed.

Lemma lex_emit_shape c r pre nl t lit l :
  lex c r = (pre, nl, Emit t lit) ->
  token_shape {| TokenType_ := t; Lexeme := pre; Literal_ := lit; Line := l |}.
Proof.
  unfold lex, lex_operator, lex_slash, string_outcome, string_lexeme,
    number_outcome.
  repeat match goal with
  | |- context [if ?b then _ else _] => destruct b eqn:?
  | |- context [let '(_, _) := ?x in _] => destruct x eqn:?
  | |- context [match ?x with Some _ => _ | None => _ end] => destruct x eqn:?
  | |- context [match ?x with [] => _ | _ :: _ => _ end] => destruct x eqn:?
  end;
  intros E; inversion E; subst; clear E;
  unfold token_shape; cbn [TokenType_ Lexeme Literal_]; try reflexivity.
  - (* a string *)
    match goal with
    | Q : (c =? r_quote) = true |- _ => apply Z.eqb_eq in Q; subst c
    end.
    match goal with
    | D : drop_while not_quote r = _ :: _ |- _ =>
        rewrite (drop_while_not_quote_head _ _ _ D)
    end.
    eexists. split; [reflexivity|]. split; [reflexivity|].
    apply take_while_not_quote_free.
  - (* a number *)
    eexists. split; [reflexivity|]. assumption.
  - (* an identifier or a keyword *)
    destruct (identifier_type_cases (identifier_text c r))
      as [[I N]|(k & I & _)].
    + rewrite I. split; [reflexivity|]. split; [exact N|].
      unfold identifier_text. eexists _, _. split; [reflexivity|].
      split; [assumption|]. apply take_while_all.
    + remember (identifier_type (identifier_text c r)) as ty.
      clear - I. unfold keywords in I. simpl in I.
      repeat (destruct I as [I|I]; [inversion I; subst; reflexivity|]).
      contradiction.
Qed.

(** X6: in all the tokens returned, a NUMBER token has as its literal the
    number its lexeme decodes to; a STRING token has as its lexeme its
    literal between two double quotes, and the literal holds no double
    quote; an IDENTIFIER token has no literal and its lexeme is a letter
    or underscore followed by letters, digits and underscores, and is no
    keyword; every other token has no literal. *)
Theorem tokens_well_shaped (src : list rune) (H : len src < int_max) :
  exists toks s', scan src = Ok (toks, s') /\ Forall token_shape toks.
Proof.
  apply scan_tokens_forall; auto.
  - intros c r pre nl t lit l L. eapply lex_emit_shape; eauto.
  - intros l. reflexivity.
Qed.

Lemma tokens_well_shaped_witness :
  exists toks s',
    scan (r_quote :: runes "a b" ++ r_quote :: runes " + x1 - 3.25") =
    Ok (toks, s') /\
    Forall token_shape toks.
Proof.
  apply (tokens_well_shaped
           (r_quote :: runes "a b" ++ r_quote :: runes " + x1 - 3.25")).
  reflexivity.
Defined.

(** ** Where the tokens lie in the source *)

Lemma newlines_zero_last l : newlines l = 0 -> last l 0 <> r_newline.
Proof.
  induction l as [|c l IH]; intros N.
  - simpl. discriminate.
  - rewrite newlines_cons in N. pose proof (newlines_bounds l) as B.
    destruct (c =? r_newline) eqn:Q; [lia|].
    destruct l as [|d l].
    + simpl. apply Z.eqb_neq. exact Q.
    + change (last (c :: d :: l) 0) with (last (d :: l) 0). apply IH. lia.
Qed.

Lemma last_snoc_cons (c : rune) l q : last (c :: l ++ [q]) 0 = q.
Proof. rewrite app_comm_cons. apply last_last. Qed.

Lemma lex_emit_lines c r pre nl t lit :
  lex c r = (pre, nl, Emit t lit) -> nl = 0 \/ last pre 0 = r_quote.
Proof.
  unfold lex, lex_operator, lex_slash, string_outcome, string_lexeme,
    number_outcome.
  repeat match goal with
  | |- context [if ?b then _ else _] => destruct b eqn:?
  | |- context [let '(_, _) := ?x in _] => destruct x eqn:?
  | |- context [match ?x with Some _ => _ | None => _ end] => destruct x eqn:?
  | |- context [match ?x with [] => _ | _ :: _ => _ end] => destruct x eqn:?
  end;
  intros E; inversion E; subst; clear E; auto.
  right.
  match goal with
  | D : drop_while not_quote r = _ :: _ |- _ =>
      rewrite (drop_while_not_quote_head _ _ _ D)
  end.
  apply last_snoc_cons.
Qed.

Lemma lex_emit_last c r pre nl t lit :
  lex c r = (pre, nl, Emit t lit) -> last pre 0 <> r_newline.
Proof.
  intros L. pose proof (lex_ok c r) as K. rewrite L in K.
  destruct K as (_ & _ & N).
  destruct (lex_emit_lines _ _ _ _ _ _ L) as [Z|Q].
  - apply newlines_zero_last. lia.
  - rewrite Q. discriminate.
Qed.

Lemma scan_placed src :
  len src < int_max ->
  exists s',
    scan src =
    Ok (tokens s' ++ [eof_token (line s')],
        set_tokens s' (tokens s' ++ [eof_token (line s')])) /\
    source s' = src /\ current s' = len src /\
    line s' = 1 + newlines src /\
    Placed (tokens s') src.
Proof.
  intros H.
  destruct (scan_total src H) as (s' & I & E & W & R).
  exists s'. split; [exact R|].
  destruct (iterates_invariant
              (fun s => source s = src /\
                        line s = 1 + newlines (firstn (Z.to_nat (current s)) src) /\
                        Placed (tokens s) (firstn (Z.to_nat (current s)) src)))
    with (s := NewScanner src lox0) (s' := s') as ((S & L & P) & _);
    [ | exact I | apply wf_NewScanner; exact H
      | split; [reflexivity | split; [reflexivity | constructor]] | ].
  - clear. intros s c r pre nl out rest W (S & L & P) E X Q N.
    pose proof (lex_ok c r) as K. rewrite X in K. destruct K as (_ & NE & _).
    rewrite Q in E.
    pose proof (firstn_remaining s pre rest W E) as F. rewrite S in F.
    destruct (finish_fields s pre nl out) as (-> & _ & -> & ->).
    rewrite tokens_finish, F.
    split; [exact S|]. split; [rewrite newlines_app; lia|].
    destruct out.
    + rewrite app_nil_r. apply Placed_skip. exact P.
    + pose proof (lex_emit_last _ _ _ _ _ _ X) as LL.
      apply (Placed_token _ _
               {| TokenType_ := t; Lexeme := pre; Literal_ := lit;
                  Line := line s + nl |}); auto.
      cbn [Line Lexeme]. rewrite newlines_app. lia.
    + rewrite app_nil_r. apply Placed_skip. exact P.
  - assert (C : current s' = len src).
    { rewrite <- S. apply remaining_nil; auto. }
    rewrite C in L, P. unfold len in L, P.
    rewrite Nat2Z.id, firstn_all in L, P. auto.
Qed.

(** X7: the lexemes of the tokens returned (the EOF token apart) lie in
    the source in the order of the tokens, one after the other without
    overlap; what lies between them is read and dropped. *)
Theorem tokens_in_source_order (src : list rune) (H : len src < int_max) :
  exists toks l s',
    scan src = Ok (toks ++ [eof_token l], s') /\ Placed toks src.
Proof.
  destruct (scan_placed src H) as (s' & R & _ & _ & _ & P).
  eexists _, _, _. split; [exact R | exact P].
Qed.

Lemma tokens_in_source_order_witness :
  exists toks l s',
    scan (runes "a = b // c") = Ok (toks ++ [eof_token l], s') /\
    Placed toks (runes "a = b // c").
Proof.
  apply (tokens_in_source_order (runes "a = b // c")). reflexivity.
Defined.

Lemma Placed_forall ts p :
  Placed ts p ->
  Forall (fun t =>
            exists a b,
              p = a ++ Lexeme t ++ b /\ Lexeme t <> [] /\
              last (Lexeme t) 0 <> r_newline /\
              Line t = 1 + newlines (a ++ Lexeme t)) ts.
Proof.
  induction 1 as [|ts p g P IH|ts p t P IH NE LL LN].
  - constructor.
  - eapply Forall_impl; [|exact IH]. simpl.
    intros t (a & b & Q & R). exists a, (b ++ g).
    split; auto. rewrite Q, <- !app_assoc. reflexivity.
  - apply Forall_app. split.
    + eapply Forall_impl; [|exact IH]. simpl.
      intros u (a & b & Q & R). exists a, (b ++ Lexeme t).
      split; auto. rewrite Q, <- !app_assoc. reflexivity.
    + constructor; [|constructor]. exists p, [].
      rewrite app_nil_r. auto.
Qed.

Lemma line_of_last a (x : list rune) b :
  x <> [] -> last x 0 <> r_newline ->
  line_of (a ++ x ++ b) (len a + len x - 1) = 1 + newlines (a ++ x).
Proof.
  intros NE LL. destruct (exists_last NE) as (y & q & ->).
  rewrite last_last in LL. unfold line_of. f_equal.
  replace (Z.to_nat (len a + len (y ++ [q]) - 1))
    with (length a + length y)%nat
    by (unfold len; rewrite length_app; simpl; lia).
  rewrite firstn_app_2, <- !app_assoc, firstn_app.
  rewrite Nat.sub_diag, firstn_all. simpl firstn. rewrite app_nil_r.
  rewrite !newlines_app, newlines_cons, newlines_nil.
  replace (q =? r_newline) with false; [lia|].
  symmetry. apply Z.eqb_neq. exact LL.
Qed.

(** X8: the lexeme of every token returned but the EOF token is a
    non-empty piece of the source, and the line of the token is the line
    on which the last rune of its lexeme lies. *)
Theorem token_lexeme_and_line (src : list rune) (H : len src < int_max) :
  exists toks l s',
    scan src = Ok (toks ++ [eof_token l], s') /\
    Forall (fun t =>
              exists a b,
                src = a ++ Lexeme t ++ b /\ Lexeme t <> [] /\
                Line t = line_of src (len a + len (Lexeme t) - 1)) toks.
Proof.
  destruct (scan_placed src H) as (s' & R & _ & _ & _ & P).
  eexists _, _, _. split; [exact R|].
  eapply Forall_impl; [|exact (Placed_forall _ _ P)]. simpl.
  intros t (a & b & Q & NE & LL & LN). exists a, b.
  split; [exact Q|]. split; [exact NE|].
  rewrite LN, Q. symmetry. apply line_of_last; auto.
Qed.

Lemma token_lexeme_and_line_witness :
  exists toks l s',
    scan (runes "a" ++ [r_newline] ++ runes "b") =
    Ok (toks ++ [eof_token l], s') /\
    Forall (fun t =>
              exists a b,
                runes "a" ++ [r_newline] ++ runes "b" = a ++ Lexeme t ++ b /\
                Lexeme t <> [] /\
                Line t = line_of (runes "a" ++ [r_newline] ++ runes "b")
                                 (len a + len (Lexeme t) - 1)) toks.
Proof.
  apply (token_lexeme_and_line (runes "a" ++ [r_newline] ++ runes "b")).
  reflexivity.
Defined.

(** X9: the scanner reads the whole source, whatever it holds: when
    [ScanTokens] returns the cursor is at the end of the source, the
    source is unchanged, and the EOF token is on the line one more than
    the number of line breaks of the source (those inside comments and
    strings included). *)
Theorem whole_source_read (src : list rune) (H : len src < int_max) :
  exists toks s',
    scan src = Ok (toks ++ [eof_token (1 + newlines src)], s') /\
    source s' = src /\ current s' = len src /\ line s' = 1 + newlines src.
Proof.
  destruct (scan_placed src H) as (s' & R & S & C & L & _).
  rewrite L in R. eexists _, _. split; [exact R|]. auto.
Qed.

Lemma whole_source_read_witness :
  exists toks s',
    scan (runes "/*" ++ [r_newline] ++ runes "@") =
    Ok (toks ++ [eof_token (1 + newlines (runes "/*" ++ [r_newline] ++ runes "@"))], s') /\
    source s' = runes "/*" ++ [r_newline] ++ runes "@" /\
    current s' = len (runes "/*" ++ [r_newline] ++ runes "@") /\
    line s' = 1 + newlines (runes "/*" ++ [r_newline] ++ runes "@").
Proof.
  apply (whole_source_read (runes "/*" ++ [r_newline] ++ runes "@")).
  reflexivity.
Defined.

(** ** The sink *)

(** A property of the scanner state kept by every lexeme holds when
    [ScanTokens] returns, if it does not depend on the tokens. *)
Lemma scan_state_invariant (P : Scanner -> Prop) src :
  len src < int_max ->
  P (NewScanner src lox0) ->
  (forall s c r pre nl out rest,
      wf s -> P s -> remaining s = c :: r -> lex c r = (pre, nl, out) ->
      c :: r = pre ++ rest -> nl = newlines pre ->
      P (finish s pre nl out)) ->
  exists s',
    scan src =
    Ok (tokens s' ++ [eof_token (line s')],
        set_tokens s' (tokens s' ++ [eof_token (line s')])) /\
    P s' /\ source s' = src /\ current s' = len src /\
    line s' = 1 + newlines src.
Proof.
  intros H P0 Step.
  destruct (scan_total src H) as (s' & I & E & W & R).
  exists s'. split; [exact R|].
  destruct (iterates_invariant P Step _ _ I (wf_NewScanner src lox0 H) P0)
    as [Ps _].
  split; [exact Ps|].
  destruct (iterates_line src lox0 s' H I) as ((S & L) & _).
  assert (C : current s' = len src).
  { rewrite <- S. apply remaining_nil; auto. }
  split; [exact S|]. split; [exact C|].
  rewrite L, C. unfold line_of, len. rewrite Nat2Z.id, firstn_all.
  reflexivity.
Qed.

Lemma scan_flag src :
  len src < int_max ->
  exists toks s',
    scan src = Ok (toks, s') /\
    (hadError (lox s') = true <-> stderr (lox s') <> []).
Proof.
  intros H.
  destruct (scan_state_invariant
              (fun s => hadError (lox s) = true <-> stderr (lox s) <> []) src H)
    as (s' & R & P & _).
  - simpl. split; [discriminate | congruence].
  - intros s c r pre nl out rest _ P _ _ _ _. rewrite lox_finish.
    destruct out; auto. simpl. split; auto.
    intros _ Q. apply app_eq_nil in Q. destruct Q as [_ Q]. discriminate.
  - eexists _, _. split; [exact R|]. exact P.
Qed.

(** X10: the flag [hadError] of the sink is set when [ScanTokens]
    returns exactly when the scan has reported an error. *)
Theorem had_error_iff_reported (src : list rune) (H : len src < int_max) :
  exists toks s',
    scan src = Ok (toks, s') /\
    (hadError (lox s') = true <-> stderr (lox s') <> []).
Proof. exact (scan_flag src H). Qed.

Lemma had_error_iff_reported_witness :
  exists toks s',
    scan (runes "a @ b") = Ok (toks, s') /\
    (hadError (lox s') = true <-> stderr (lox s') <> []).
Proof.
  apply (had_error_iff_reported (runes "a @ b")). reflexivity.
Defined.

(** X11: the errors are reported in the order of the source: the line
    numbers of the records of the sink never decrease, each lies between
    1 and the last line of the source, and no record has a location
    text. *)
Theorem reports_in_source_order (src : list rune) (H : len src < int_max) :
  exists toks s',
    scan src = Ok (toks, s') /\
    StronglySorted Z.le (map diagnostic_line (stderr (lox s'))) /\
    Forall (fun d => 1 <= diagnostic_line d <= 1 + newlines src /\
                     snd (fst d) = EmptyString)
           (stderr (lox s')).
Proof.
  destruct (scan_state_invariant
              (fun s =>
                 1 <= line s /\
                 StronglySorted Z.le (map diagnostic_line (stderr (lox s))) /\
                 Forall (fun d => 1 <= diagnostic_line d <= line s /\
                                  snd (fst d) = EmptyString)
                        (stderr (lox s))) src H)
    as (s' & R & (_ & S & F) & _ & _ & L).
  - simpl. split; [lia|]. split; constructor.
  - intros s c r pre nl out rest _ (L1 & S & F) _ _ _ N.
    pose proof (newlines_bounds pre) as NB.
    destruct (finish_fields s pre nl out) as (_ & _ & _ & ->).
    rewrite lox_finish. split; [lia|].
    assert (F' : Forall (fun d => 1 <= diagnostic_line d <= line s + nl /\
                                  snd (fst d) = EmptyString)
                        (stderr (lox s))).
    { eapply Forall_impl; [|exact F]. simpl. intros d [B Q]. split; auto. lia. }
    destruct out; auto.
    cbn [reportError report stderr]. split.
    + rewrite map_app. apply StronglySorted_snoc; auto.
      apply Forall_map. eapply Forall_impl; [|exact F'].
      simpl. intros d [B _]. unfold diagnostic_line at 2. simpl. lia.
    + apply Forall_app. split; auto. constructor; [|constructor].
      unfold diagnostic_line. simpl. split; [lia|reflexivity].
  - rewrite L in F. eexists _, _. split; [exact R|]. split; [exact S|exact F].
Qed.

Lemma reports_in_source_order_witness :
  exists toks s',
    scan (runes "@" ++ [r_newline] ++ runes "#") = Ok (toks, s') /\
    StronglySorted Z.le (map diagnostic_line (stderr (lox s'))) /\
    Forall (fun d => 1 <= diagnostic_line d <=
                       1 + newlines (runes "@" ++ [r_newline] ++ runes "#") /\
                     snd (fst d) = EmptyString)
           (stderr (lox s')).
Proof.
  apply (reports_in_source_order (runes "@" ++ [r_newline] ++ runes "#")).
  reflexivity.
Defined.

(** X12: every token but the EOF token and every report comes from at
    least one rune of its own: the tokens returned and the errors
    reported are together at most one more than the runes of the
    source. *)
Theorem output_bounded_by_source (src : list rune) (H : len src < int_max) :
  exists toks s',
    scan src = Ok (toks, s') /\
    Z.of_nat (length toks) + Z.of_nat (length (stderr (lox s'))) <= len src + 1.
Proof.
  destruct (scan_state_invariant
              (fun s =>
                 Z.of_nat (length (tokens s)) +
                 Z.of_nat (length (stderr (lox s))) <= current s) src H)
    as (s' & R & P & _ & C & _).
  - simpl. lia.
  - intros s c r pre nl out rest _ P _ X _ _.
    pose proof (lex_ok c r) as K. rewrite X in K. destruct K as (_ & NE & _).
    assert (1 <= len pre).
    { destruct pre; [congruence|]. rewrite len_cons.
      pose proof (len_nonneg pre). lia. }
    destruct (finish_fields s pre nl out) as (_ & _ & -> & _).
    rewrite tokens_finish, lox_finish.
    destruct out; cbn [reportError report stderr];
      rewrite ?length_app; simpl length; lia.
  - eexists _, _. split; [exact R|].
    cbn [lox set_tokens]. rewrite length_app. simpl length. lia.
Qed.

Lemma output_bounded_by_source_witness :
  exists toks s',
    scan (runes "(@)") = Ok (toks, s') /\
    Z.of_nat (length toks) + Z.of_nat (length (stderr (lox s')))
      <= len (runes "(@)") + 1.
Proof.
  apply (output_bounded_by_source (runes "(@)")). reflexivity.
Defined.

(** ** The scanner and the sink it is given *)

Lemma reportError_merge l x ln e :
  reportError (merge_lox l x) ln e = merge_lox l (reportError x ln e).
Proof.
  unfold reportError, report, merge_lox. simpl.
  rewrite orb_true_r, app_assoc. reflexivity.
Qed.

Lemma finish_with_sink l s pre nl out :
  finish (with_sink l s) pre nl out = with_sink l (finish s pre nl out).
Proof.
  destruct out; try reflexivity.
  unfold finish, with_sink, begin, consumed, set_lox, set_start. simpl.
  rewrite reportError_merge. reflexivity.
Qed.

Lemma iterates_with_sink l s s' :
  iterates s s' -> wf s -> iterates (with_sink l s) (with_sink l s').
Proof.
  induction 1 as [s|s s1 s2 C B I IH]; intros W.
  - constructor.
  - destruct (iterates_step_inv s s1 W C B)
      as (c & r & pre & nl & out & rest & E & L & _ & _ & _ & -> & W1 & _).
    apply (iterates_lex (with_sink l s) c r pre nl out); auto.
    rewrite finish_with_sink. apply IH. exact W1.
Qed.

Lemma merge_lox0 l : merge_lox l lox0 = l.
Proof.
  destruct l. unfold merge_lox. simpl. rewrite orb_false_r, app_nil_r.
  reflexivity.
Qed.

(** X13: the tokens [run] prints do not depend on what the sink has
    recorded before: they are the tokens of the scan with an empty sink;
    the errors of the scan are added after the earlier records and the
    flag [hadError], once set, stays set. *)
Theorem run_with_any_sink
    (l : Lox) (src : list rune) (H : len src < int_max) :
  exists toks s' l',
    scan src = Ok (toks, s') /\
    run l src = Ok (toks, l') /\
    stderr l' = stderr l ++ stderr (lox s') /\
    hadError l' = hadError l || hadError (lox s').
Proof.
  destruct (scan_total src H) as (s' & I & E & _ & R).
  pose proof (wf_NewScanner src lox0 H) as W.
  pose proof (iterates_with_sink l _ _ I W) as I2.
  assert (N : with_sink l (NewScanner src lox0) = NewScanner src l).
  { unfold with_sink, NewScanner, set_lox. simpl. rewrite merge_lox0.
    reflexivity. }
  rewrite N in I2.
  pose proof (ScanTokens_end _ _ (wf_NewScanner src l H) I2 E) as R2.
  eexists _, _, _. split; [exact R|].
  unfold run. rewrite R2. split; [reflexivity|]. split; reflexivity.
Qed.

Lemma run_with_any_sink_witness :
  exists toks s' l',
    scan (runes "1 @") = Ok (toks, s') /\
    run {| hadError := true;
           stderr := [unterminated_string_at 7] |} (runes "1 @") =
      Ok (toks, l') /\
    stderr l' = [unterminated_string_at 7] ++ stderr (lox s') /\
    hadError l' = true || hadError (lox s').
Proof.
  apply (run_with_any_sink
           {| hadError := true; stderr := [unterminated_string_at 7] |}
           (runes "1 @")).
  reflexivity.
Defined.

(** X14: [runFile] on a file that was read, with the empty sink of
    [main]: the tokens of the scan are printed whether or not there were
    errors, and the process exits with status 65 exactly when the scan
    has reported an error; otherwise [runFile] returns [nil].  When the
    file could not be read the error is returned, nothing is scanned and
    the sink is not touched. *)
Theorem runFile_exit_status (src : list rune) (H : len src < int_max) :
  (exists toks s' ending,
      scan src = Ok (toks, s') /\
      runFile lox0 (Some src) = Ok (toks, lox s', ending) /\
      (stderr (lox s') <> [] -> ending = Exited 65) /\
      (stderr (lox s') = [] -> ending = Returned false)) /\
  (forall l, runFile l None = Ok ([], l, Returned true)).
Proof.
  split; [|reflexivity].
  destruct (scan_flag src H) as (toks & s' & R & F).
  exists toks, s'.
  unfold runFile, run. unfold scan in R. rewrite R.
  destruct (hadError (lox s')) eqn:Q.
  - eexists. split; [exact R|]. split; [reflexivity|]. split; auto.
    intros N. exfalso. apply (proj1 F); auto.
  - eexists. split; [exact R|]. split; [reflexivity|]. split; auto.
    intros N. apply (proj2 F) in N. discriminate.
Qed.

Lemma runFile_exit_status_witness :
  (exists toks s' ending,
      scan (runes "1 @") = Ok (toks, s') /\
      runFile lox0 (Some (runes "1 @")) = Ok (toks, lox s', ending) /\
      (stderr (lox s') <> [] -> ending = Exited 65) /\
      (stderr (lox s') = [] -> ending = Returned false)) /\
  (forall l, runFile l None = Ok ([], l, Returned true)).
Proof.
  apply (runFile_exit_status (runes "1 @")). reflexivity.
Defined.

(** ** Using the scanner again *)

(** X15: [ScanTokens] is not meant to be called twice: a second call on
    the same scanner reads nothing and reports nothing, and returns the
    tokens of the first call with one more EOF token after them. *)
Theorem second_scan_adds_eof (src : list rune) (H : len src < int_max) :
  exists toks l s' s'',
    scan src = Ok (toks ++ [eof_token l], s') /\
    ScanTokens s' = Ok (toks ++ [eof_token l; eof_token l], s'') /\
    lox s'' = lox s' /\ current s'' = current s' /\ line s'' = line s'.
Proof.
  destruct (scan_total src H) as (s' & _ & E & W & R).
  set (s1 := set_tokens s' (tokens s' ++ [eof_token (line s')])) in *.
  assert (W1 : wf s1) by exact W.
  assert (E1 : remaining s1 = []) by exact E.
  pose proof (ScanTokens_end s1 s1 W1 (iterates_refl s1) E1) as R2.
  eexists _, _, _, _. split; [exact R|]. split.
  - rewrite R2. unfold s1 at 1. cbn [tokens set_tokens line].
    rewrite <- app_assoc. reflexivity.
  - split; [reflexivity|]. split; reflexivity.
Qed.

Lemma second_scan_adds_eof_witness :
  exists toks l s' s'',
    scan (runes "a") = Ok (toks ++ [eof_token l], s') /\
    ScanTokens s' = Ok (toks ++ [eof_token l; eof_token l], s'') /\
    lox s'' = lox s' /\ current s'' = current s' /\ line s'' = line s'.
Proof.
  apply (second_scan_adds_eof (runes "a")). reflexivity.
Defined.

(** ** The cursor *)

(** X16: how the operations on the cursor fit together.  At the end of
    the source [isAtEnd] holds, [peek] and [peekNext] give the zero rune
    and [match] fails, and none of them moves the cursor.  Before the
    end, [peek] gives the next rune and leaves it, [advance] gives the
    same rune and moves one rune on, [peekNext] gives what [peek] gives
    after [advance], and [match] moves one rune on exactly when the next
    rune is the expected one. *)
Theorem cursor_operations (s : Scanner) (H : wf s) :
  match remaining s with
  | [] =>
      isAtEnd s = Ok (true, s) /\ peek s = Ok (0, s) /\
      peekNext s = Ok (0, s) /\
      (forall x, match_ x s = Ok (false, s))
  | c :: r =>
      isAtEnd s = Ok (false, s) /\ peek s = Ok (c, s) /\
      advance s = Ok (c, step1 s) /\ remaining (step1 s) = r /\
      peekNext s = Ok (hd 0 r, s) /\
      peek (step1 s) = Ok (hd 0 r, step1 s) /\
      match_ c s = Ok (true, step1 s) /\
      (forall x, x <> c -> match_ x s = Ok (false, s))
  end.
Proof.
  pose proof (isAtEnd_spec s H) as A. pose proof (peek_spec s H) as P.
  pose proof (peekNext_spec s H) as PN.
  destruct (remaining s) as [|c r] eqn:E.
  - split; [exact A|]. split; [exact P|]. split; [exact PN|].
    intros x. rewrite (match_spec s x H), E. reflexivity.
  - pose proof (wf_step1 s c r H E) as W1.
    pose proof (remaining_step1 s c r H E) as R1.
    split; [exact A|]. split; [exact P|].
    split; [apply (advance_spec s c r H E)|]. split; [exact R1|].
    split; [exact PN|].
    split; [rewrite (peek_spec _ W1), R1; reflexivity|].
    split.
    + rewrite (match_spec s c H), E, Z.eqb_refl. reflexivity.
    + intros x N. rewrite (match_spec s x H), E.
      replace (c =? x) with false; auto.
      symmetry. apply Z.eqb_neq. congruence.
Qed.

Lemma cursor_operations_witness :
  match remaining (NewScanner (runes "ab") lox0) with
  | [] =>
      isAtEnd (NewScanner (runes "ab") lox0) =
        Ok (true, NewScanner (runes "ab") lox0) /\
      peek (NewScanner (runes "ab") lox0) =
        Ok (0, NewScanner (runes "ab") lox0) /\
      peekNext (NewScanner (runes "ab") lox0) =
        Ok (0, NewScanner (runes "ab") lox0) /\
      (forall x, match_ x (NewScanner (runes "ab") lox0) =
                 Ok (false, NewScanner (runes "ab") lox0))
  | c :: r =>
      isAtEnd (NewScanner (runes "ab") lox0) =
        Ok (false, NewScanner (runes "ab") lox0) /\
      peek (NewScanner (runes "ab") lox0) =
        Ok (c, NewScanner (runes "ab") lox0) /\
      advance (NewScanner (runes "ab") lox0) =
        Ok (c, step1 (NewScanner (runes "ab") lox0)) /\
      remaining (step1 (NewScanner (runes "ab") lox0)) = r /\
      peekNext (NewScanner (runes "ab") lox0) =
        Ok (hd 0 r, NewScanner (runes "ab") lox0) /\
      peek (step1 (NewScanner (runes "ab") lox0)) =
        Ok (hd 0 r, step1 (NewScanner (runes "ab") lox0)) /\
      match_ c (NewScanner (runes "ab") lox0) =
        Ok (true, step1 (NewScanner (runes "ab") lox0)) /\
      (forall x, x <> c ->
         match_ x (NewScanner (runes "ab") lox0) =
         Ok (false, NewScanner (runes "ab") lox0))
  end.
Proof.
  apply (cursor_operations (NewScanner (runes "ab") lox0)).
  unfold wf. vm_compute. intuition discriminate.
Defined.
